(** * The IKK code-based cryptosystem and its ciphertext-only attack

    A shallow embedding of [ikk_simulation.py]: key generation, encryption,
    decryption and the linear attack of Ivanov, Kabatiansky and Krouk's
    upgraded cryptosystem, over the matrices of MathComp.

    The script is SageMath code: the linear algebra it calls ([rref],
    [pivots], [rank], [right_kernel_matrix], [inverse],
    [matrix_from_columns], [augment]) is Sage's.  Those operations are
    modelled here by Gauss-Jordan elimination with the column scan of the
    specification (left to right, first usable row), and related to
    MathComp's [\rank] and row spaces by the lemmas of the first sections. *)

Set Warnings "-notation-overridden,-ambiguous-paths,-notation-incompatible-prefix,-rewrite-rw".
From HB Require Import structures.
From mathcomp Require Import boot.
From mathcomp Require Import ssralg perm matrix mxalgebra zmodp.

Set Implicit Arguments.
Unset Strict Implicit.
Unset Printing Implicit Defensive.

Import GRing.Theory.
Local Open Scope ring_scope.

(** ** Row reduction *)

Section RowReduction.

Variable R : fieldType.
Variables m n : nat.
Implicit Types (A B : 'M[R]_(m, n)) (piv : seq 'I_n).

(** One Gauss-Jordan step: row [p] is scaled so that its entry in column
    [j] becomes 1, and column [j] is cleared in every other row. *)
Definition eliminate A (p : 'I_m) (j : 'I_n) : 'M[R]_(m, n) :=
  \matrix_(i, l) (if i == p then (A p j)^-1 * A p l
                  else A i l - A i j * ((A p j)^-1 * A p l)).

(** The state of the scan is the matrix reduced so far and the pivot columns
    found so far; the next pivot row is row [size piv].  Column [j] gets a
    pivot when some row at or below the next pivot row is nonzero there. *)
Definition rref_step (st : 'M[R]_(m, n) * seq 'I_n) (j : 'I_n) :=
  let: (A, piv) := st in
  if [pick i : 'I_m | (size piv <= i) && (A i j != 0)] is Some i then
    let p := insubd i (size piv) in
    (eliminate (xrow i p A) p j, rcons piv j)
  else (A, piv).

Definition echelonize A := foldl rref_step (A, [::]) (enum 'I_n).

(** Sage's [A.rref()], [A.pivots()] and [A.rank()]. *)
Definition rref A : 'M[R]_(m, n) := (echelonize A).1.
Definition pivots A : seq 'I_n := (echelonize A).2.
Definition rank A : nat := size (pivots A).

(** The columns that carry no pivot, in increasing order. *)
Definition free_columns A : seq 'I_n :=
  [seq j <- enum 'I_n | j \notin pivots A].

(** What holds after the first [c] columns have been scanned. *)
Record rref_inv A (c : nat) (st : 'M[R]_(m, n) * seq 'I_n) : Prop := RrefInv {
  inv_eqmx : (st.1 :=: A)%MS;
  inv_sorted : sorted ltn [seq val j | j <- st.2];
  inv_bound : all (fun j : 'I_n => j < c)%N st.2;
  inv_size : (size st.2 <= m)%N;
  inv_unit : forall (j : 'I_n) (i : 'I_m),
    j \in st.2 -> st.1 i j = (i == index j st.2 :> nat)%:R;
  inv_below : forall (i : 'I_m) (l : 'I_n),
    (size st.2 <= i)%N -> (l < c)%N -> st.1 i l = 0;
  inv_left : forall (j l : 'I_n) (i : 'I_m),
    j \in st.2 -> i = index j st.2 :> nat -> (l < j)%N -> st.1 i l = 0
}.

End RowReduction.

Section RowReductionTheory.

Variable R : fieldType.
Variables m n : nat.
Implicit Types (A B : 'M[R]_(m, n)) (piv : seq 'I_n).

Lemma index_tnth (T : eqType) (s : seq T) (t : 'I_(size s)) :
  uniq s -> index (tnth (in_tuple s) t) s = t.
Proof.
case: s t => [[] //|x0 s] t us.
by rewrite (tnth_nth x0) [tval _]/= index_uniq.
Qed.

Lemma tnth_index (T : eqType) (s : seq T) (x : T) (t : 'I_(size s)) :
  x \in s -> val t = index x s -> tnth (in_tuple s) t = x.
Proof. by move=> xs e; rewrite (tnth_nth x) /= e nth_index. Qed.

Lemma tnth_eq (T : eqType) (s : seq T) (t t' : 'I_(size s)) :
  uniq s -> (tnth (in_tuple s) t == tnth (in_tuple s) t') = (t == t').
Proof.
move=> us; apply/eqP/eqP => [e | -> //].
by apply: val_inj; rewrite /= -(index_tnth t us) e index_tnth.
Qed.

Lemma sorted_ltn_rcons (s : seq nat) (x : nat) :
  all (fun y => y < x)%N s -> sorted ltn s -> sorted ltn (rcons s x).
Proof.
case: s => [|y s] //= /andP [yx sx] ys.
rewrite rcons_path ys /=.
have /(allP (s := y :: s)) : all (fun z => z < x)%N (y :: s) by rewrite /= yx.
by apply; exact: mem_last.
Qed.

Lemma eliminate_eqmx A p j : A p j != 0 -> (eliminate A p j :=: A)%MS.
Proof.
move=> nz; apply/eqmxP/andP; split; apply/row_subP => i.
- have -> : row i (eliminate A p j) =
    if i == p then (A p j)^-1 *: row p A
    else row i A + (- (A i j * (A p j)^-1)) *: row p A.
    apply/rowP => l; rewrite !mxE; case: ifP => _; rewrite !mxE //.
    by rewrite mulNr mulrA.
  case: ifP => _; first exact/scalemx_sub/row_sub.
  by apply: addmx_sub; [exact: row_sub | exact/scalemx_sub/row_sub].
- have -> : row i A =
    if i == p then A p j *: row p (eliminate A p j)
    else row i (eliminate A p j) + A i j *: row p (eliminate A p j).
    apply/rowP => l; case: ifP => [/eqP -> | ip]; rewrite !mxE ?eqxx ?ip.
      by rewrite mulrA divff // mul1r.
    by rewrite subrK.
  case: ifP => _; first exact/scalemx_sub/row_sub.
  by apply: addmx_sub; [exact: row_sub | exact/scalemx_sub/row_sub].
Qed.

Lemma xrow_eqmx A (i p : 'I_m) : (xrow i p A :=: A)%MS.
Proof.
by rewrite xrowE; apply: eqmxMfull; rewrite row_full_unit unitmx_perm.
Qed.

Lemma rref_step_inv A c (j : 'I_n) st :
  j = c :> nat -> rref_inv A c st -> rref_inv A c.+1 (rref_step st j).
Proof.
case: st => B piv jc [/= Heq Hsort Hbnd Hsz Hunit Hbelow Hleft].
rewrite /rref_step; case: pickP => [i0 /andP [ri0 nz] | none].
- set r := size piv in ri0 *.
  set p : 'I_m := insubd i0 r.
  have vp : p = r :> nat.
    by rewrite /p val_insubd (leq_ltn_trans ri0 (ltn_ord i0)).
  set B1 := xrow i0 p B.
  have B1E i l : B1 i l = B (tperm i0 p i) l by rewrite !mxE.
  have low_perm (i : 'I_m) : (r <= i)%N -> (r <= tperm i0 p i)%N.
    by case: tpermP => // _ _; rewrite vp.
  have B1low (i : 'I_m) (l : 'I_n) : (r <= i)%N -> (l < c)%N -> B1 i l = 0.
    by move=> ri lc; rewrite B1E Hbelow // low_perm.
  have B1piv (i : 'I_m) (j' : 'I_n) : j' \in piv -> B1 i j' = B i j'.
    move=> jin; have lt_r : (index j' piv < r)%N by rewrite index_mem.
    rewrite B1E; case: tpermP => [-> | -> | //]; rewrite !Hunit // vp.
      by rewrite (gtn_eqF lt_r) (gtn_eqF (leq_trans lt_r ri0)).
    by rewrite (gtn_eqF lt_r) (gtn_eqF (leq_trans lt_r ri0)).
  have aE : B1 p j = B i0 j by rewrite B1E tpermR.
  have nz1 : B1 p j != 0 by rewrite aE.
  have jnotin : j \notin piv.
    apply/negP => /(allP Hbnd); by rewrite jc ltnn.
  have EE i l : eliminate B1 p j i l =
      if i == p then (B1 p j)^-1 * B1 p l
      else B1 i l - B1 i j * ((B1 p j)^-1 * B1 p l) by rewrite mxE.
  have Ej i : eliminate B1 p j i j = (i == p)%:R.
    rewrite EE; case: ifP => _; first by rewrite mulVf.
    by rewrite mulVf // mulr1 subrr.
  have B1p0 (l : 'I_n) : (l < c)%N -> B1 p l = 0.
    by move=> lc; rewrite B1low // vp.
  split=> /=.
  + exact: eqmx_trans (eliminate_eqmx nz1) (eqmx_trans (xrow_eqmx _ _ _) Heq).
  + rewrite map_rcons; apply: sorted_ltn_rcons => //.
    by rewrite all_map; apply: sub_all Hbnd => x /=; rewrite jc.
  + rewrite all_rcons jc ltnSn /=.
    by apply: sub_all Hbnd => x /= /ltnW.
  + by rewrite size_rcons -/r -vp.
  + move=> j' i; rewrite mem_rcons inE => /orP [/eqP -> | jin].
      rewrite Ej -cats1 index_cat (negbTE jnotin) /= eqxx addn0 -/r.
      by rewrite -vp.
    rewrite -cats1 index_cat jin EE !(B1piv _ _ jin) !(Hunit _ _ jin) vp.
    have lt_r : (index j' piv < r)%N by rewrite index_mem.
    rewrite (gtn_eqF lt_r) mulr0; case: ifP => [/eqP -> | _].
      by rewrite vp (gtn_eqF lt_r).
    by rewrite mulr0 subr0.
  + move=> i l; rewrite size_rcons -/r => ri.
    have ip : i != p by apply/eqP => ip; move: ri; rewrite ip vp ltnn.
    rewrite ltnS leq_eqVlt => /orP [/eqP lc | lc].
      have -> : l = j by apply: val_inj; rewrite /= lc jc.
      by rewrite Ej (negbTE ip).
    by rewrite EE (negbTE ip) (B1p0 l lc) !mulr0 subr0 B1low // ltnW.
  + move=> j' l i; rewrite mem_rcons inE => /orP [/eqP -> | jin].
      rewrite -cats1 index_cat (negbTE jnotin) /= eqxx addn0 -/r => ir lj.
      have -> : i = p by apply: val_inj; rewrite /= ir vp.
      by rewrite EE eqxx (B1p0 l) ?mulr0 // -jc.
    rewrite -cats1 index_cat jin => it lj.
    have lt_r : (index j' piv < r)%N by rewrite index_mem.
    have lc : (l < c)%N by apply: ltn_trans lj _; exact: (allP Hbnd).
    have ip : i != p by apply/eqP => ip; move: lt_r; rewrite -it ip vp ltnn.
    rewrite EE (negbTE ip) (B1p0 l lc) !mulr0 subr0 B1E tpermD.
    * by apply/eqP => e; move: (leq_trans lt_r ri0); rewrite -it -e ltnn.
    * by rewrite eq_sym.
    * exact: (Hleft j').
- split=> //=.
  + by apply: sub_all Hbnd => x /= /ltnW.
  + move=> i l ri; rewrite ltnS leq_eqVlt => /orP [/eqP lc | lc]; last first.
      exact: Hbelow.
    have -> : l = j by apply: val_inj; rewrite /= lc jc.
    by have := none i; rewrite ri /= => /negbFE /eqP.
Qed.

Lemma rref_prefix_inv A c : (c <= n)%N ->
  rref_inv A c (foldl (@rref_step R m n) (A, [::]) (take c (enum 'I_n))).
Proof.
elim: c => [|c IH] cn.
  by rewrite take0 /=; split.
have cn' : (c < size (enum 'I_n))%N by rewrite size_enum_ord.
rewrite (take_nth (Ordinal cn)) // -cats1 foldl_cat /=.
apply: rref_step_inv (IH (ltnW cn)).
by rewrite nth_enum_ord.
Qed.

Lemma echelonize_inv A : rref_inv A n (echelonize A).
Proof.
have := rref_prefix_inv A (leqnn n).
by rewrite take_oversize ?size_enum_ord.
Qed.

(** The reduced matrix spans the row space of the matrix it comes from. *)
Lemma rref_eqmx A : (rref A :=: A)%MS.
Proof. by case: (echelonize_inv A). Qed.

Lemma pivots_sorted A : sorted ltn [seq val j | j <- pivots A].
Proof. by case: (echelonize_inv A). Qed.

Lemma pivots_uniq A : uniq (pivots A).
Proof.
rewrite -(map_inj_uniq val_inj).
exact: sorted_uniq ltn_trans ltnn _ (pivots_sorted A).
Qed.

Lemma rank_leq_rows A : (rank A <= m)%N.
Proof. by case: (echelonize_inv A). Qed.

(** A pivot column of the reduced matrix is a unit vector: its only nonzero
    entry is a 1 in the row that has the rank of the pivot. *)
Lemma rref_pivot_col A (j : 'I_n) (i : 'I_m) :
  j \in pivots A -> rref A i j = (i == index j (pivots A) :> nat)%:R.
Proof. by case: (echelonize_inv A) => _ _ _ _ H _ _; exact: H. Qed.

(** The rows from the rank on are zero. *)
Lemma rref_zero_row A (i : 'I_m) (l : 'I_n) :
  (rank A <= i)%N -> rref A i l = 0.
Proof. by case: (echelonize_inv A) => _ _ _ _ _ H _ /H; apply. Qed.

(** A row is zero to the left of its pivot. *)
Lemma rref_left_of_pivot A (j l : 'I_n) (i : 'I_m) :
  j \in pivots A -> i = index j (pivots A) :> nat -> (l < j)%N ->
  rref A i l = 0.
Proof. by case: (echelonize_inv A) => _ _ _ _ _ _; apply. Qed.

Lemma index_tnth_pivots A (t : 'I_(size (pivots A))) :
  index (tnth (in_tuple (pivots A)) t) (pivots A) = t.
Proof. exact/index_tnth/pivots_uniq. Qed.

(** A reduced matrix of rank at most [r] is spanned by its first [r]
    rows. *)
Lemma rref_sub_top A r (le_r : (r <= m)%N) :
  (rank A <= r)%N -> (rref A <= rowsub (widen_ord le_r) (rref A))%MS.
Proof.
move=> rkA; apply/row_subP => i.
case: (ltnP i r) => [lt_i | ge_i].
  have -> : row i (rref A) =
      row (Ordinal lt_i) (rowsub (widen_ord le_r) (rref A)).
    by rewrite row_rowsub; congr (row _ _); apply: val_inj.
  exact: row_sub.
have -> : row i (rref A) = 0.
  by apply/rowP => l; rewrite !mxE rref_zero_row // (leq_trans rkA).
exact: sub0mx.
Qed.

(** The number of pivots is the rank of the matrix. *)
Lemma rankE A : rank A = \rank A.
Proof.
apply/eqP; rewrite eqn_leq -(rref_eqmx A).1; apply/andP; split.
- set C := colsub (tnth (in_tuple (pivots A))) (rref A).
  have -> : rank A = \rank C.
    have -> : C = pid_mx (rank A).
      apply/matrixP => i t; rewrite !mxE rref_pivot_col ?mem_tnth //.
      rewrite index_tnth_pivots; case: eqP => [-> | //].
      by rewrite [(t < _)%N]ltn_ord.
    by rewrite rank_pid_mx // rank_leq_rows.
  have -> : C = rref A *m colsub (tnth (in_tuple (pivots A))) 1%:M.
    by rewrite mulmx_colsub mulmx1.
  exact: mxrankM_maxl.
- apply: leq_trans (mxrankS (rref_sub_top (rank_leq_rows A) (leqnn _))) _.
  exact: rank_leq_row.
Qed.

Lemma rref0 : rref (0 : 'M[R]_(m, n)) = 0.
Proof. by apply/eqP; rewrite -submx0 (rref_eqmx _).2 sub0mx. Qed.

End RowReductionTheory.

(** ** Kernel basis *)

Section Kernel.

Variable R : fieldType.
Variables m n : nat.
Implicit Types A : 'M[R]_(m, n).

(** The basis read off the reduced matrix: one vector per free column [f],
    with a 1 in position [f], the negated entry of column [f] in each pivot
    position, and 0 in the other free positions. *)
Definition pivot_kernel_basis A : 'M[R]_(size (free_columns A), n) :=
  \matrix_(s, l)
    (if l \in pivots A then
       oapp (fun i : 'I_m => - rref A i (tnth (in_tuple (free_columns A)) s))
            0 (insub (index l (pivots A)))
     else (l == tnth (in_tuple (free_columns A)) s)%:R).

(** Sage's [A.right_kernel_matrix()]: a matrix whose rows are a basis of
    the vectors [x] with [A * x = 0], returned in echelon form. *)
Definition right_kernel_matrix A : 'M[R]_(size (free_columns A), n) :=
  rref (pivot_kernel_basis A).

Lemma free_columns_uniq A : uniq (free_columns A).
Proof. by rewrite filter_uniq ?enum_uniq. Qed.

Lemma free_column_notin A (s : 'I_(size (free_columns A))) :
  tnth (in_tuple (free_columns A)) s \notin pivots A.
Proof.
have := mem_tnth s (in_tuple (free_columns A)).
by rewrite /free_columns memtE /= mem_filter => /andP [].
Qed.

Lemma size_free_columns A : size (free_columns A) = (n - \rank A)%N.
Proof.
rewrite -rankE /rank /free_columns size_filter.
have <- : count (mem (pivots A)) (enum 'I_n) = size (pivots A).
  have /card_uniqP <- := pivots_uniq A.
  by rewrite enumT cardE /enum_mem size_filter.
have := count_predC (mem (pivots A)) (enum 'I_n).
move: (count _ _) (count _ _) => a b; rewrite size_enum_ord => <-.
by rewrite addKn.
Qed.

Lemma mul_rref_pivot_kernel A : rref A *m (pivot_kernel_basis A)^T = 0.
Proof.
apply/matrixP => i s; rewrite !mxE.
set f := tnth (in_tuple (free_columns A)) s.
have fJ : f \notin pivots A := free_column_notin s.
case: (leqP (rank A) i) => [ge_i | lt_i].
  by apply: big1 => l _; rewrite rref_zero_row // mul0r.
pose l0 := tnth (in_tuple (pivots A)) (Ordinal lt_i).
have l0J : l0 \in pivots A by exact: mem_tnth.
have idx0 : index l0 (pivots A) = i by rewrite index_tnth_pivots.
rewrite (bigID (mem (pivots A))) /=.
have -> : \sum_(l | l \in pivots A) rref A i l * (pivot_kernel_basis A)^T l s
          = - rref A i f.
  rewrite (bigD1 l0) //= big1 ?addr0 => [l /andP [lJ ll0]|].
    rewrite rref_pivot_col //; case: eqP => [e | _]; last by rewrite mul0r.
    by case/eqP: ll0; rewrite -(@tnth_index _ _ l (Ordinal lt_i)).
  by rewrite !mxE l0J rref_pivot_col // idx0 eqxx mul1r valK.
have -> : \sum_(l | l \notin pivots A)
            rref A i l * (pivot_kernel_basis A)^T l s = rref A i f.
  rewrite (bigD1 f) //= big1 ?addr0 => [l /andP [lJ lf]|].
    by rewrite !mxE (negbTE lJ) (negbTE lf) mulr0.
  by rewrite !mxE (negbTE fJ) eqxx mulr1.
by rewrite addNr.
Qed.

(** Every vector of the basis is in the right kernel. *)
Lemma mul_pivot_kernel A : A *m (pivot_kernel_basis A)^T = 0.
Proof.
have /submxP [D eA] : (A <= rref A)%MS by rewrite (rref_eqmx A).2.
by rewrite [X in X *m _]eA -mulmxA mul_rref_pivot_kernel mulmx0.
Qed.

Lemma pivot_kernel_free A : row_free (pivot_kernel_basis A).
Proof.
apply/row_freeP.
exists (colsub (tnth (in_tuple (free_columns A))) 1%:M).
rewrite mulmx_colsub mulmx1; apply/matrixP => s s'; rewrite !mxE.
by rewrite (negbTE (free_column_notin s')) tnth_eq ?free_columns_uniq // eq_sym.
Qed.

Lemma mul_right_kernel A : A *m (right_kernel_matrix A)^T = 0.
Proof.
have /submxP [D ->] :
  (right_kernel_matrix A <= pivot_kernel_basis A)%MS.
  by rewrite (rref_eqmx _).2.
by rewrite trmx_mul mulmxA mul_pivot_kernel mul0mx.
Qed.

Lemma right_kernel_free A : row_free (right_kernel_matrix A).
Proof.
rewrite /row_free /right_kernel_matrix (rref_eqmx _).1.
exact: pivot_kernel_free.
Qed.

End Kernel.

(** ** Solving a linear system by reducing its augmented matrix *)

Section Solve.

Variable R : fieldType.

Lemma sorted_ltn_iota (s : seq nat) (q : nat) :
  sorted ltn s -> all (fun x => x < q)%N s -> (q <= size s)%N -> s = iota 0 q.
Proof.
move=> ss bs qs.
apply: (irr_sorted_eq ltn_trans ltnn ss (iota_ltn_sorted 0 q)).
apply: (uniq_min_size _ _ _).2; last by rewrite size_iota.
  exact: sorted_uniq ltn_trans ltnn _ ss.
by move=> x /(allP bs); rewrite mem_iota add0n.
Qed.

Lemma index_iota0 (q i : nat) : (i < q)%N -> index i (iota 0 q) = i.
Proof.
move=> iq; rewrite -{1}[i]add0n -(nth_iota 0 0 iq) index_uniq ?iota_uniq //.
by rewrite size_iota.
Qed.

(** When the first [q] columns carry [q] pivots, the pivots are exactly
    those columns and the reduced matrix has the identity there. *)
Lemma rref_identity_block m q (X : 'M[R]_(m, q)) (c : nat) :
  all (fun j : 'I_q => j < c)%N (pivots X) -> (c <= rank X)%N ->
  forall (i : 'I_m) (j : 'I_q), (j < c)%N -> rref X i j = (i == j :> nat)%:R.
Proof.
move=> bnd sz i j jc.
have eJ : [seq val l | l <- pivots X] = iota 0 c.
  apply: sorted_ltn_iota; rewrite ?size_map ?all_map //.
  exact: pivots_sorted.
have jJ : j \in pivots X.
  by rewrite -(mem_map val_inj) eJ mem_iota add0n.
by rewrite rref_pivot_col // -(index_map val_inj) eJ index_iota0.
Qed.

Variables m p : nat.
Implicit Types (A : 'M[R]_(m, p)) (b : 'cV[R]_m) (z : 'cV[R]_p).

(** The column of the right-hand sides, Python's column [-1]. *)
Definition last_col : 'I_(p + 1) := rshift p ord0.

Lemma last_colE : last_col = p :> nat.
Proof. by rewrite /= addn0. Qed.

Lemma lt_last_col (j : 'I_(p + 1)) : (j < p)%N = (j != last_col).
Proof.
rewrite -val_eqE /= addn0 ltn_neqAle.
have : (j < p.+1)%N by rewrite -[p.+1]addn1.
by rewrite ltnS => ->; rewrite andbT.
Qed.

Lemma rank_augment_ge A b : (\rank A <= \rank (row_mx A b))%N.
Proof.
have {1}-> : A = row_mx A b *m col_mx 1%:M 0.
  by rewrite mul_row_col mulmx1 mulmx0 addr0.
exact: mxrankM_maxl.
Qed.

(** The last column of the reduction of a solvable system [A | A z] is the
    reduced left block applied to [z]. *)
Lemma rref_augment_last A z (i : 'I_m) :
  rref (row_mx A (A *m z)) i last_col =
  \sum_l rref (row_mx A (A *m z)) i (lshift 1 l) * z l ord0.
Proof.
set X := row_mx A (A *m z).
have /submxP [D eD] : (rref X <= X)%MS by rewrite (rref_eqmx X).2.
have eX : rref X = row_mx (D *m A) (D *m A *m z).
  by rewrite eD /X mul_mx_row mulmxA.
rewrite {1}eX row_mxEr mxE; apply: eq_bigr => l _.
by rewrite eX row_mxEl.
Qed.

(** A solvable system puts no pivot in the column of right-hand sides. *)
Lemma last_col_not_pivot A z : last_col \notin pivots (row_mx A (A *m z)).
Proof.
set X := row_mx A (A *m z).
apply/negP => lastJ.
have lt_t : (index last_col (pivots X) < m)%N.
  by apply: leq_trans (rank_leq_rows X); rewrite index_mem.
have := rref_pivot_col (Ordinal lt_t) lastJ.
rewrite /= eqxx rref_augment_last big1 => [l _|/eqP]; last first.
  by rewrite eq_sym oner_eq0.
rewrite (@rref_left_of_pivot _ _ _ X last_col) ?mul0r //.
by rewrite last_colE /= ltn_ord.
Qed.

(** Unique solution: when [A] has full column rank, the reduction of
    [A | A z] carries [z] in the first [p] rows of its last column. *)
Lemma rref_augment_solution A z (i : 'I_m) (t : 'I_p) :
  \rank A = p -> i = t :> nat ->
  rref (row_mx A (A *m z)) i last_col = z t ord0.
Proof.
move=> rkA it; set X := row_mx A (A *m z).
have bnd : all (fun j : 'I_(p + 1) => j < p)%N (pivots X).
  apply/allP => j jX; rewrite lt_last_col.
  by apply: contraNneq (last_col_not_pivot A z) => <-.
have sz : (p <= rank X)%N by rewrite rankE -{1}rkA rank_augment_ge.
rewrite rref_augment_last (bigD1 t) //= big1 ?addr0 => [l lt|].
  rewrite (rref_identity_block bnd sz) /= ?ltn_ord // it.
  by rewrite eq_sym val_eqE (negbTE lt) mul0r.
by rewrite (rref_identity_block bnd sz) /= ?ltn_ord // it eqxx mul1r.
Qed.

(** No solution: when [A] has full column rank and [b] is outside its
    column space, the last column is a pivot column, so its first [p]
    entries are all zero. *)
Lemma rref_augment_inconsistent A b (i : 'I_m) :
  \rank A = p -> ~~ (b^T <= A^T)%MS -> (i < p)%N ->
  rref (row_mx A b) i last_col = 0.
Proof.
move=> rkA nsol ip; set X := row_mx A b.
have sz : (p + 1 <= rank X)%N.
  rewrite rankE; have := rank_augment_ge A b.
  rewrite rkA -/X leq_eqVlt => /orP [/eqP rkX |]; last first.
    by move: (\rank X) => rX; rewrite addn1.
  case/negP: nsol.
  have sub : (A^T <= X^T)%MS.
    by rewrite tr_row_mx; apply/submxP; exists (row_mx 1%:M 0);
       rewrite mul_row_col mul1mx mul0mx addr0.
  have := mxrank_leqif_sup sub; rewrite !mxrank_tr rkA -rkX => -[_ e].
  have : (X^T <= A^T)%MS by rewrite -e.
  by rewrite tr_row_mx col_mx_sub => /andP [].
have bnd : all (fun j : 'I_(p + 1) => j < p + 1)%N (pivots X).
  by apply/allP => j _.
rewrite (rref_identity_block bnd sz) ?ltn_ord // last_colE.
by rewrite (ltn_eqF ip).
Qed.

End Solve.

(** ** Sage operations whose shape is only known at run time *)

Section SageOps.

Variable R : fieldType.

(** [A.matrix_from_columns(J)]: the columns of [A] listed in [J], in the
    order of [J]. *)
Definition matrix_from_columns m n (A : 'M[R]_(m, n)) (J : seq 'I_n) :
    'M[R]_(m, size J) :=
  colsub (tnth (in_tuple J)) A.

(** [A.inverse()] raises ([None]) when [A] is not square or is singular. *)
Definition inverse a b (A : 'M[R]_(a, b)) : option 'M[R]_(b, a) :=
  if a =P b is ReflectT e then
    let A' : 'M[R]_b := castmx (e, erefl b) A in
    if A' \in unitmx then Some (castmx (erefl b, esym e) (invmx A'))
    else None
  else None.

(** [A * B] raises ([None]) when the inner dimensions differ. *)
Definition mul_dyn a b b' c (A : 'M[R]_(a, b)) (B : 'M[R]_(b', c)) :
    option 'M[R]_(a, c) :=
  if b =P b' is ReflectT e then Some (A *m castmx (esym e, erefl c) B)
  else None.

Lemma slice_subproof (N r : nat) (j : 'I_(N - r)) : (r + j < N)%N.
Proof. by rewrite -ltn_subRL. Qed.

(** The column of index [r + j], for the slice [r:-1] of a matrix with
    [N + 1] columns. *)
Definition slice_col (N r : nat) (j : 'I_(N - r)) : 'I_(N + 1) :=
  lshift 1 (Ordinal (slice_subproof j)).

End SageOps.

Section SageOpsTheory.

Variable R : fieldType.

Lemma inverse_unit n (A : 'M[R]_n) :
  A \in unitmx -> inverse A = Some (invmx A).
Proof.
by move=> uA; rewrite /inverse; case: eqP => // e; rewrite !castmx_id uA.
Qed.

Lemma inverse_singular n (A : 'M[R]_n) : A \notin unitmx -> inverse A = None.
Proof.
move=> uA; rewrite /inverse; case: eqP => // e.
by rewrite !castmx_id (negbTE uA).
Qed.

Lemma inverseP a b (A : 'M[R]_(a, b)) (B : 'M[R]_(b, a)) :
  inverse A = Some B -> A *m B = 1%:M /\ B *m A = 1%:M.
Proof.
rewrite /inverse; case: eqP => // e; case: _ / e A B => A B.
rewrite !castmx_id; case: ifP => // uA [<-].
by rewrite mulmxV // mulVmx.
Qed.

Lemma inverse_left a b (A : 'M[R]_(a, b)) (P : 'M[R]_(b, a)) :
  a = b -> P *m A = 1%:M -> inverse A = Some P.
Proof.
move=> e; case: _ / e A P => A P PA.
have [_ uA] := mulmx1_unit PA.
rewrite inverse_unit //; congr Some.
by rewrite -[LHS]mul1mx -PA -mulmxA mulmxV // mulmx1.
Qed.

Lemma mul_dynP a b c (A : 'M[R]_(a, b)) (B : 'M[R]_(b, c)) :
  mul_dyn A B = Some (A *m B).
Proof. by rewrite /mul_dyn; case: eqP => // e; rewrite castmx_id. Qed.

(** Selecting distinct columns of an invertible matrix keeps them
    independent. *)
Lemma rank_matrix_from_columns n (T : 'M[R]_n) (J : seq 'I_n) :
  T \in unitmx -> uniq J -> \rank (matrix_from_columns T J) = size J.
Proof.
move=> uT uJ; rewrite /matrix_from_columns -[T]mulmx1 -mulmx_colsub.
rewrite -mxrank_tr trmx_mul mxrankMfree ?row_free_unit ?unitmx_tr //.
apply/eqP; rewrite -/(row_free _); apply/row_freeP.
exists (colsub (tnth (in_tuple J)) 1%:M).
apply/matrixP => s s'; rewrite !mxE (bigD1 (tnth (in_tuple J) s)) //=.
rewrite big1 ?addr0 => [l ls|]; first by rewrite !mxE (negbTE ls) mul0r.
by rewrite !mxE eqxx mul1r tnth_eq.
Qed.

End SageOpsTheory.

(** ** The cryptosystem *)

Section Scheme.

(** The script works over [R = GF(q)] with [q = 2], code length [n] and
    dimension [k]; these are global to the four operations.  The
    specification asks for [0 < k < n]; what is used here is [k <= n], so
    that the slice [[:k]] of a matrix with [n] rows has [k] rows and
    Python's [n - k] is the subtraction of natural numbers. *)
Variable R : fieldType.
Variables n k : nat.
Hypothesis le_kn : (k <= n)%N.

(** Sage's random generator is global state: [rng] is that state, and a draw
    returns the sample with the state that follows. *)
Variable rng : Type.
Variable random_matrix : forall r c : nat, rng -> 'M[R]_(r, c) * rng.
Variable random_vector : forall len : nat, rng -> 'rV[R]_len * rng.

(** A computation that draws random samples either returns a value with the
    generator state it leaves, or raises, or is still running when the
    iterations allotted to its loops are used up. *)
Inductive outcome (T : Type) : Type :=
  | Returns (x : T) (g : rng)
  | Raises
  | OutOfFuel.

Arguments Raises {T}.
Arguments OutOfFuel {T}.

Definition randomized (T : Type) : Type := rng -> outcome T.

Definition ret T (x : T) : randomized T := fun g => Returns x g.

Definition bind T U (c : randomized T) (f : T -> randomized U) :
    randomized U :=
  fun g => match c g with
           | Returns x g' => f x g'
           | Raises => Raises
           | OutOfFuel => OutOfFuel
           end.

Definition draw T (sample : rng -> T * rng) : randomized T :=
  fun g => let: (x, g') := sample g in Returns x g'.

Definition check T (o : option T) : randomized T :=
  fun g => if o is Some x then Returns x g else Raises.

Notation "'let*' x ':=' c 'in' f" := (bind c (fun x => f))
  (at level 10, x name, c at level 100, f at level 200).

Definition public_key : Type := 'M[R]_(k, n) * 'M[R]_n.

Definition secret_key : Type :=
  'M[R]_(k, n) * 'M[R]_n * 'M[R]_n * 'M[R]_n * 'M[R]_n * seq 'I_n.

(** [random_code] (lines 6-16): a random codeword of the code generated
    by [G]. *)
Definition random_code m (G : 'M[R]_(m, n)) : randomized 'rV[R]_n :=
  let* v := draw (random_vector m) in
  ret (v *m G).

(** [random_nonsingular_matrix] (lines 21-36): samples until the rank is
    [min(k, n)].  The script's loop is [while True]; [fuel] bounds the
    iterations that are run here, and [OutOfFuel] says that the loop is
    still running after them. *)
Fixpoint random_nonsingular_matrix (fuel : nat) (r c : nat) :
    randomized 'M[R]_(r, c) :=
  if fuel is fuel'.+1 then
    let* G := draw (random_matrix r c) in
    if rank G == minn r c then ret G
    else random_nonsingular_matrix fuel' r c
  else fun _ => OutOfFuel.

(** [G0[i, :] = v]: row [i] is overwritten. *)
Definition set_row (i : 'I_n) (v : 'rV[R]_n) (A : 'M[R]_n) : 'M[R]_n :=
  \matrix_(i', j) (if i' == i then v ord0 j else A i' j).

(** The loop [for i in range(G0.nrows()): G0[i, :] = random_code(G)]. *)
Fixpoint fill_rows (G : 'M[R]_(k, n)) (rows : seq 'I_n) (G0 : 'M[R]_n) :
    randomized 'M[R]_n :=
  if rows is i :: rows' then
    let* w := random_code G in
    fill_rows G rows' (set_row i w G0)
  else ret G0.

(** [key_gen] (lines 41-82).  The product [L * HJ] is the one place where
    the shapes are only known at run time: [HJ] has as many rows as the
    kernel has dimensions. *)
Definition key_gen (fuel : nat) : randomized (public_key * secret_key) :=
  let* G := random_nonsingular_matrix fuel k n in
  let* G0 := fill_rows G (enum 'I_n) 0 in
  let J := pivots G in
  let* T := random_nonsingular_matrix fuel n n in
  let TJ := matrix_from_columns T J in
  let HJ := right_kernel_matrix TJ^T in
  let* L := random_nonsingular_matrix fuel n (n - k) in
  let* Q := check (mul_dyn L HJ) in
  let* M := random_nonsingular_matrix fuel n n in
  let G1 := G *m M in
  let G2 := Q *m (G0 + T) *m M in
  let pk := (G1, G2) in
  let sk := (G, M, T, Q, G0, J) in
  ret (pk, sk).

(** [enc] (lines 87-106). *)
Definition enc (pk : public_key) (u : 'rV[R]_k) : randomized 'rV[R]_n :=
  let: (G1, G2) := pk in
  let* e := draw (random_vector n) in
  let ct := u *m G1 + e *m G2 in
  ret ct.

(** [dec] (lines 112-146).  It raises ([None]) when one of its inverses
    does; it has no other failure. *)
Definition dec (sk : secret_key) (ct : 'rV[R]_n) : option 'rV[R]_k :=
  let: (G, M, T, Q, G0, J) := sk in
  if inverse M is Some Minv then
    let y := ct *m Minv in
    let GJ := matrix_from_columns G J in
    let ymat : 'M[R]_(1, n) := y in
    let yJ := matrix_from_columns ymat J in
    if inverse GJ is Some GJinv then
      let eQT := y - yJ *m GJinv *m G in
      if inverse T is Some Tinv then
        let eQ := eQT *m Tinv in
        let eQG0 := eQ *m G0 in
        let uG := y - eQG0 - eQT in
        let Gconc := row_mx G^T uG^T in
        let Gsoln := rref Gconc in
        Some (\row_(i < k) Gsoln (widen_ord le_kn i) (last_col k))
      else None
    else None
  else None.

(** The value of the variable [uG] of [dec], the right-hand side of the
    system [G^T * x = uG^T] that [dec] solves last (lines 126-140). *)
Definition dec_uG (sk : secret_key) (ct : 'rV[R]_n) : option 'rV[R]_n :=
  let: (G, M, T, Q, G0, J) := sk in
  if inverse M is Some Minv then
    let y := ct *m Minv in
    let GJ := matrix_from_columns G J in
    let yJ := matrix_from_columns y J in
    if inverse GJ is Some GJinv then
      let eQT := y - yJ *m GJinv *m G in
      if inverse T is Some Tinv then
        let eQ := eQT *m Tinv in
        let eQG0 := eQ *m G0 in
        Some (y - eQG0 - eQT)
      else None
    else None
  else None.

(** What [attack] returns: the particular solution [Gsoln[:k, -1]], and the
    block [Gsoln[:k, rank:-1]] with its number of columns. *)
Definition attack_result : Type := 'cV[R]_k * {w : nat & 'M[R]_(k, w)}.

Definition ncols (B : {w : nat & 'M[R]_(k, w)}) : nat := tag B.

(** [G2.rref()[:n-k, :]]: the first [n - k] rows of the reduced [G2]. *)
Definition G2_reduced (G2 : 'M[R]_n) : 'M[R]_(n - k, n) :=
  rowsub (widen_ord (leq_subr k n)) (rref G2).

(** [attack] (lines 151-181). *)
Definition attack (pk : public_key) (ct : 'rV[R]_n) : attack_result :=
  let: (G1, G2) := pk in
  let G1t := G1^T in
  let G2red := G2_reduced G2 in
  let G2t := G2red^T in
  let Gmult := row_mx G1t G2t in
  let rk := rank Gmult in
  let Gaug := row_mx Gmult ct^T in
  let Gsoln := rref Gaug in
  (\col_(i < k) Gsoln (widen_ord le_kn i) (last_col (k + (n - k))),
   Tagged (fun w => 'M[R]_(k, w))
     (\matrix_(i < k, j < k + (n - k) - rk)
        Gsoln (widen_ord le_kn i) (slice_col j))).

(** The value of the variable [Gmult] of [attack] (lines 167-173). *)
Definition G_mult (pk : public_key) : 'M[R]_(n, k + (n - k)) :=
  let: (G1, G2) := pk in
  let G1t := G1^T in
  let G2red := G2_reduced G2 in
  let G2t := G2red^T in
  row_mx G1t G2t.

(** *** The sampling loops *)

(** The sample that [random_nonsingular_matrix] looks at after [i]
    rejections, with the generator state that follows it. *)
Fixpoint nth_draw (r c : nat) (i : nat) (g : rng) : 'M[R]_(r, c) * rng :=
  if i is i'.+1 then nth_draw r c i' (random_matrix r c g).2
  else random_matrix r c g.

Definition full_rank r c (G : 'M[R]_(r, c)) : bool := rank G == minn r c.

Lemma rnm_full_rank fuel r c g G g' :
  random_nonsingular_matrix fuel r c g = Returns G g' -> \rank G = minn r c.
Proof.
elim: fuel g => [|fuel IH] g //=.
rewrite /bind /draw; case: (random_matrix r c g) => G1 g1.
case: ifP => [/eqP rk [<- _] | _ /IH //].
by rewrite -rankE.
Qed.

Lemma rnm_not_raises fuel r c g :
  random_nonsingular_matrix fuel r c g <> Raises.
Proof.
elim: fuel g => [|fuel IH] g //=.
rewrite /bind /draw; case: (random_matrix r c g) => G1 g1.
by case: ifP.
Qed.

Lemma rnm_returns_at r c i g fuel :
  (forall j, (j < i)%N -> ~~ full_rank (nth_draw r c j g).1) ->
  full_rank (nth_draw r c i g).1 -> (i < fuel)%N ->
  random_nonsingular_matrix fuel r c g =
  Returns (nth_draw r c i g).1 (nth_draw r c i g).2.
Proof.
elim: i g fuel => [|i IH] g [|fuel] //= rej acc lt_i.
  rewrite /bind /draw; case: (random_matrix r c g) acc => G1 g1 /= acc.
  by rewrite -/(full_rank G1) acc.
have rej0 := rej 0%N isT.
move: rej0 acc; rewrite /bind /draw /=.
case e: (random_matrix r c g) => [G1 g1] /= /negbTE rej0 acc.
rewrite -/(full_rank G1) rej0; apply: IH => // j lt_j.
by have := rej j.+1 lt_j; rewrite /= e.
Qed.

Lemma rnm_rejects r c g fuel :
  (forall j, (j < fuel)%N -> ~~ full_rank (nth_draw r c j g).1) ->
  random_nonsingular_matrix fuel r c g = OutOfFuel.
Proof.
elim: fuel g => [|fuel IH] g //= rej.
have rej0 := rej 0%N isT.
move: rej0; rewrite /bind /draw /=.
case e: (random_matrix r c g) => [G1 g1] /= /negbTE rej0.
rewrite -/(full_rank G1) rej0; apply: IH => j lt_j.
by have := rej j.+1 lt_j; rewrite /= e.
Qed.

(** *** The rows of [G0] are codewords *)

Lemma set_row_sub m (G : 'M[R]_(m, n)) i (w : 'rV[R]_n) (A : 'M[R]_n) :
  (w <= G)%MS -> (A <= G)%MS -> (set_row i w A <= G)%MS.
Proof.
move=> wG AG; apply/row_subP => i'.
have -> : row i' (set_row i w A) = if i' == i then w else row i' A.
  by apply/rowP => j; rewrite !mxE; case: ifP => _; rewrite ?mxE // ord1.
by case: ifP => _ //; apply: submx_trans (row_sub _ _) AG.
Qed.

Lemma fill_rowsP (G : 'M[R]_(k, n)) rows G0 g :
  (G0 <= G)%MS ->
  exists G0' g', fill_rows G rows G0 g = Returns G0' g' /\ (G0' <= G)%MS.
Proof.
elim: rows G0 g => [|i rows IH] G0 g G0G /=; first by exists G0, g.
rewrite /bind /random_code /bind /draw.
case: (random_vector k g) => v g1 /=.
by apply: IH; apply: set_row_sub => //; exact: submxMl.
Qed.

(** *** Key pairs built by [key_gen] *)

(** What the construction of [key_gen] guarantees about a key pair. *)
Definition derived_keys (pk : public_key) (sk : secret_key) : Prop :=
  let: (G1, G2) := pk in
  let: (G, M, T, Q, G0, J) := sk in
  [/\ \rank G = k, J = pivots G, (G0 <= G)%MS, T \in unitmx & M \in unitmx] /\
  [/\ G1 = G *m M, G2 = Q *m (G0 + T) *m M &
      exists L : 'M[R]_(n, n - k), exists H : 'M[R]_(n - k, n),
        [/\ Q = L *m H, \rank L = (n - k)%N, row_free H &
            H *m matrix_from_columns T J = 0]].

Lemma mul_dyn_some a b b' c (A : 'M[R]_(a, b)) (B : 'M[R]_(b', c)) Q :
  mul_dyn A B = Some Q ->
  exists2 B' : 'M[R]_(b, c), Q = A *m B' & b = b' /\ (B' :=: B)%MS.
Proof.
rewrite /mul_dyn; case: eqP => // e [<-].
by exists (castmx (esym e, erefl c) B) => //; split=> //; exact: eqmx_cast.
Qed.

Lemma mul_dyn_conform a b b' c (A : 'M[R]_(a, b)) (B : 'M[R]_(b', c)) :
  b = b' -> exists Q, mul_dyn A B = Some Q.
Proof. by rewrite /mul_dyn; case: eqP => // e _; eexists. Qed.

Lemma full_rank_unit (T : 'M[R]_n) : \rank T = minn n n -> T \in unitmx.
Proof. by rewrite minnn -row_free_unit /row_free => ->. Qed.

Lemma kernel_rows (G : 'M[R]_(k, n)) (T : 'M[R]_n) :
  \rank G = k -> T \in unitmx ->
  size (free_columns (matrix_from_columns T (pivots G))^T) = (n - k)%N.
Proof.
move=> rkG uT; rewrite size_free_columns mxrank_tr.
by rewrite rank_matrix_from_columns ?pivots_uniq // -/(rank G) rankE rkG.
Qed.

Lemma key_genP fuel g pk sk g' :
  key_gen fuel g = Returns (pk, sk) g' -> derived_keys pk sk.
Proof.
rewrite /key_gen /bind.
case eG: (random_nonsingular_matrix fuel k n g) => [G g1| |] //.
have [G0 [g2 [-> G0G]]] := @fill_rowsP G (enum 'I_n) 0 g1 (sub0mx _ _).
case eT: (random_nonsingular_matrix fuel n n g2) => [T g3| |] //.
case eL: (random_nonsingular_matrix fuel n (n - k) g3) => [L g4| |] //.
rewrite /check; case eQ: (mul_dyn _ _) => [Q|] //.
case eM: (random_nonsingular_matrix fuel n n g4) => [M g5| |] //.
rewrite /ret => -[<- <- _] /=.
have rkG : \rank G = k by rewrite (rnm_full_rank eG) (minn_idPl le_kn).
have uT : T \in unitmx := full_rank_unit (rnm_full_rank eT).
have uM : M \in unitmx := full_rank_unit (rnm_full_rank eM).
have [H eH [e HJ]] := mul_dyn_some eQ.
split; split=> //; exists L, H; split=> //.
- by rewrite (rnm_full_rank eL) (minn_idPr (leq_subr k n)).
- by rewrite /row_free HJ.1 e; exact: right_kernel_free.
- have /submxP [D ->] : (H <= right_kernel_matrix
      (matrix_from_columns T (pivots G))^T)%MS by rewrite HJ.2.
  apply: trmx_inj; rewrite -mulmxA trmx_mul trmx_mul trmx0.
  by rewrite mul_right_kernel mul0mx.
Qed.

Lemma key_gen_returns fuel g :
  (forall r c g1, full_rank (random_matrix r c g1).1) ->
  exists pk sk g', key_gen fuel.+1 g = Returns (pk, sk) g'.
Proof.
move=> full.
have rnm r c g1 : random_nonsingular_matrix fuel.+1 r c g1 =
    Returns (random_matrix r c g1).1 (random_matrix r c g1).2.
  by rewrite (@rnm_returns_at r c 0) //=.
rewrite /key_gen /bind rnm.
set G := (random_matrix k n g).1.
have rkG : \rank G = k.
  by rewrite -rankE (eqP (full k n g)) (minn_idPl le_kn).
have [G0 [g2 [-> G0G]]] :=
  @fill_rowsP G (enum 'I_n) 0 (random_matrix k n g).2 (sub0mx _ _).
rewrite rnm; set T := (random_matrix n n g2).1.
have uT : T \in unitmx.
  by apply: full_rank_unit; rewrite -rankE (eqP (full n n g2)).
rewrite rnm /check.
have [Q ->] := mul_dyn_conform (random_matrix n (n - k)
  (random_matrix n n g2).2).1 (right_kernel_matrix
    (matrix_from_columns T (pivots G))^T) (esym (kernel_rows rkG uT)).
by rewrite rnm /ret; do 3!eexists.
Qed.

(** *** The pivot columns of a generator matrix *)

Lemma inverse_of_left_unit a b (A : 'M[R]_(a, b)) (D : 'M[R]_a) :
  a = b -> (forall i t, (D *m A) i t = (i == t :> nat)%:R) ->
  exists B, inverse A = Some B.
Proof.
move=> e; case: _ / e A => A DA; exists D; apply: inverse_left => //.
by apply/matrixP => i t; rewrite DA !mxE.
Qed.

Lemma pivot_columns_invertible (G : 'M[R]_(k, n)) :
  \rank G = k ->
  size (pivots G) = k /\
  exists B, inverse (matrix_from_columns G (pivots G)) = Some B.
Proof.
move=> rkG; have szJ : size (pivots G) = k by rewrite -/(rank G) rankE.
split=> //.
have /submxP [D eD] : (rref G <= G)%MS by rewrite (rref_eqmx G).2.
apply: (@inverse_of_left_unit _ _ _ D) => // i t.
rewrite /matrix_from_columns mulmx_colsub -eD mxE rref_pivot_col ?mem_tnth //.
by rewrite index_tnth_pivots.
Qed.

(** *** Decryption *)

(** Lines 142-146 of [dec]: the plaintext read off the reduced system. *)
Definition dec_solve (G : 'M[R]_(k, n)) (uG : 'rV[R]_n) : 'rV[R]_k :=
  let Gconc := row_mx G^T uG^T in
  let Gsoln := rref Gconc in
  \row_(i < k) Gsoln (widen_ord le_kn i) (last_col k).

Lemma decE (sk : secret_key) ct :
  dec sk ct = omap (dec_solve sk.1.1.1.1.1) (dec_uG sk ct).
Proof.
case: sk => [[[[[G M] T] Q] G0] J]; rewrite /dec /dec_uG /=.
case: (inverse M) => //= Minv; case: (inverse _) => //= GJinv.
by case: (inverse T).
Qed.

Lemma matrix_from_columnsE m (X : 'M[R]_(m, n)) (J : seq 'I_n) :
  matrix_from_columns X J = X *m matrix_from_columns 1%:M J.
Proof. by rewrite /matrix_from_columns mulmx_colsub mulmx1. Qed.

Lemma dec_uG_derived pk sk (u : 'rV[R]_k) (e : 'rV[R]_n) :
  derived_keys pk sk ->
  dec_uG sk (u *m pk.1 + e *m pk.2) = Some (u *m sk.1.1.1.1.1).
Proof.
case: pk sk => [G1 G2] [[[[[G M] T] Q] G0] J] /=.
case=> [[rkG -> G0G uT uM] [-> -> [L [H [eQ rkL fH HTJ]]]]].
have [_ [B eB]] := pivot_columns_invertible rkG.
have [GJB BGJ] := inverseP eB.
have /submxP [V eV] := G0G.
have QTJ : Q *m matrix_from_columns T (pivots G) = 0.
  by rewrite eQ -mulmxA HTJ mulmx0.
rewrite (inverse_unit uM) eB (inverse_unit uT).
set y := (_ + _) *m invmx M.
have yE : y = u *m G + e *m Q *m G0 + e *m Q *m T.
  rewrite /y mulmxDl -!mulmxA mulmxV // !mulmx1.
  by rewrite !mulmxDr !mulmxA addrA.
have yJ : matrix_from_columns y (pivots G) =
    (u + e *m Q *m V) *m matrix_from_columns G (pivots G).
  rewrite (matrix_from_columnsE y) yE eV !mulmxDl -!mulmxA.
  by rewrite -!matrix_from_columnsE QTJ !mulmx0 addr0.
have eQTE : y - matrix_from_columns y (pivots G) *m B *m G = e *m Q *m T.
  rewrite yJ -[_ *m _ *m B]mulmxA GJB mulmx1 yE eV mulmxDl !mulmxA.
  by rewrite addrC addKr.
congr Some; rewrite eQTE mulmxK // yE.
by rewrite addrAC addrK addrK.
Qed.

Lemma dec_solve_codeword (G : 'M[R]_(k, n)) (u : 'rV[R]_k) :
  \rank G = k -> dec_solve G (u *m G) = u.
Proof.
move=> rkG; apply/rowP => i; rewrite /dec_solve mxE trmx_mul.
by rewrite (@rref_augment_solution _ _ _ _ _ _ i) ?mxrank_tr // mxE.
Qed.

Lemma dec_derived pk sk (u : 'rV[R]_k) (e : 'rV[R]_n) :
  derived_keys pk sk -> dec sk (u *m pk.1 + e *m pk.2) = Some u.
Proof.
move=> keys; rewrite decE (dec_uG_derived u e keys) /= dec_solve_codeword //.
by case: pk sk keys => [G1 G2] [[[[[G M] T] Q] G0] J] [[]].
Qed.

(** When the last system has no solution, [dec] still returns: the zero
    plaintext. *)
Lemma dec_solve_inconsistent (G : 'M[R]_(k, n)) (uG : 'rV[R]_n) :
  \rank G = k -> ~~ (uG <= G)%MS -> dec_solve G uG = 0.
Proof.
move=> rkG nsol; apply/rowP => i; rewrite /dec_solve !mxE.
by rewrite rref_augment_inconsistent ?mxrank_tr ?trmxK //= ltn_ord.
Qed.

(** *** The attack *)

Lemma G2_reduced_span (G2 : 'M[R]_n) :
  (\rank G2 <= n - k)%N -> (G2 <= G2_reduced G2)%MS.
Proof.
move=> rk2; apply: submx_trans (rref_sub_top _ _); last by rewrite rankE.
by rewrite (rref_eqmx G2).2.
Qed.

Lemma derived_rank_bound pk sk :
  derived_keys pk sk ->
  (\rank sk.1.1.2 <= n - k)%N /\ (\rank pk.2 <= n - k)%N.
Proof.
case: pk sk => [G1 G2] [[[[[G M] T] Q] G0] J] /=.
case=> [_ [_ -> [L [H [eQ _ _ _]]]]].
have rkQ : (\rank Q <= n - k)%N.
  by rewrite eQ; apply: leq_trans (mxrankM_maxr _ _) (rank_leq_row _).
split=> //; apply: leq_trans rkQ.
by rewrite -mulmxA mxrankM_maxl.
Qed.

Lemma attack_derived pk sk (u : 'rV[R]_k) (e : 'rV[R]_n) :
  derived_keys pk sk -> rank (G_mult pk) = n ->
  (attack pk (u *m pk.1 + e *m pk.2)).1 = u^T /\
  ncols (attack pk (u *m pk.1 + e *m pk.2)).2 = 0%N.
Proof.
move=> keys rkn; have [_ rk2] := derived_rank_bound keys.
case: pk rkn rk2 {keys} => [G1 G2] /= rkn rk2.
split; last by rewrite /ncols /attack /= rkn subnKC // subnn.
have /submxP [w ew] : (e *m G2 <= G2_reduced G2)%MS.
  exact: submx_trans (submxMl _ _) (G2_reduced_span rk2).
apply/colP => i; rewrite /attack /= !mxE.
have -> : (u *m G1 + e *m G2)^T = G_mult (G1, G2) *m col_mx u^T w^T.
  by rewrite /G_mult mul_row_col -!trmx_mul -ew -raddfD.
rewrite (@rref_augment_solution _ _ _ _ _ _ (lshift (n - k) i)) //.
  by rewrite -rankE rkn subnKC.
by rewrite col_mxEu mxE.
Qed.

(** The public matrix [G2] of a generated key has rank exactly [n - k]. *)
Lemma derived_rank_G2 pk sk : derived_keys pk sk -> \rank pk.2 = (n - k)%N.
Proof.
case: pk sk => [G1 G2] [[[[[G M] T] Q] G0] J] /=.
case=> [[rkG -> G0G uT uM] [_ -> [L [H [-> rkL fH HTJ]]]]].
have [_ [B eB]] := pivot_columns_invertible rkG.
have [GJB _] := inverseP eB.
have /submxP [V eV] := G0G.
rewrite mxrankMfree ?row_free_unit // -mulmxA.
rewrite -mxrank_tr trmx_mul mxrankMfree.
  by rewrite /row_free mxrank_tr rkL.
rewrite mxrank_tr; apply/eqP; rewrite -/(row_free _) -kermx_eq0.
move: (kermx _) (mulmx_ker (H *m (G0 + T))) => X XY.
have WV : X *m H *m V = 0.
  have: X *m (H *m (G0 + T)) *m matrix_from_columns 1%:M (pivots G) = 0.
    by rewrite XY mul0mx.
  rewrite -!mulmxA mulmxDl -!matrix_from_columnsE mulmxDr HTJ addr0 eV.
  rewrite (matrix_from_columnsE (V *m G)) -mulmxA -matrix_from_columnsE.
  rewrite !mulmxA => e0.
  by rewrite -[LHS]mulmx1 -GJB mulmxA e0 mul0mx.
have WT : X *m H *m T = 0.
  by move: XY; rewrite !mulmxDr eV !mulmxA WV mul0mx add0r.
have XH : X *m H = 0 by rewrite -[LHS](mulmxK uT) WT mul0mx.
by apply/eqP; apply: (row_free_inj fH); rewrite XH mul0mx.
Qed.

Lemma G2_reduced_eqmx (G2 : 'M[R]_n) :
  (\rank G2 <= n - k)%N -> (G2_reduced G2 :=: G2)%MS.
Proof.
move=> rk2; apply/eqmxP; rewrite G2_reduced_span // andbT.
rewrite /G2_reduced rowsubE; apply: submx_trans (submxMl _ _) _.
by rewrite (rref_eqmx G2).2.
Qed.

(** For a generated key the matrix assembled by the attack always has
    rank [n]: the code of [G1] and the row space of [G2] meet in 0. *)
Lemma derived_full_rank pk sk : derived_keys pk sk -> rank (G_mult pk) = n.
Proof.
move=> keys; have [_ rk2] := derived_rank_bound keys.
have rkG2 := derived_rank_G2 keys.
case: pk sk keys rk2 rkG2 => [G1 G2] [[[[[G M] T] Q] G0] J] /=.
case=> [[rkG -> G0G uT uM] [eG1 eG2 [L [H [eQ rkL fH HTJ]]]]] rk2 rkG2.
have [_ [B eB]] := pivot_columns_invertible rkG.
have [GJB _] := inverseP eB.
have /submxP [V eV] := G0G.
rewrite rankE -mxrank_tr tr_row_mx !trmxK -(addsmxE _ _).1.
rewrite mxrank_disjoint_sum.
  apply/eqP/rowV0P => v; rewrite sub_capmx (G2_reduced_eqmx rk2).2.
  rewrite eG1 eG2 eQ => /andP [/submxP [c ec] /submxP [w ew]].
  have [W eW] : exists W, w *m L *m H = W by eexists.
  have e1 : c *m G = W *m V *m G + W *m T.
    apply: (can_inj (mulmxK uM)).
    rewrite -[c *m G *m M]mulmxA -ec ew -eW eV.
    by rewrite !(mulmxDr, mulmxDl, mulmxA).
  have WTJ : W *m matrix_from_columns T (pivots G) = 0.
    by rewrite -eW -mulmxA HTJ mulmx0.
  have cE : c = W *m V.
    have: matrix_from_columns (c *m G) (pivots G) =
          matrix_from_columns (W *m V *m G + W *m T) (pivots G) by rewrite e1.
    rewrite (matrix_from_columnsE (c *m G)) (matrix_from_columnsE (_ + _)).
    rewrite mulmxDl -!mulmxA -!matrix_from_columnsE WTJ addr0 !mulmxA => e2.
    by rewrite -[LHS]mulmx1 -GJB mulmxA e2 -mulmxA GJB mulmx1.
  have WT : W *m T = 0.
    by apply: (addrI (W *m V *m G)); rewrite -e1 cE addr0.
  have W0 : W = 0 by rewrite -[LHS](mulmxK uT) WT mul0mx.
  by rewrite ec cE W0 !mul0mx.
rewrite (G2_reduced_eqmx rk2).1 rkG2 eG1 mxrankMfree ?row_free_unit // rkG.
by rewrite subnKC.
Qed.

(** ** The properties of the specification *)

(** C1 (round trip).  For every key pair that [key_gen] returns, every
    plaintext [u] and every error vector drawn by [enc], decrypting the
    ciphertext of [u] returns [u]. *)
Theorem dec_enc_round_trip fuel g pk sk g1 (u : 'rV[R]_k) g2 ct g3 :
  key_gen fuel g = Returns (pk, sk) g1 ->
  enc pk u g2 = Returns ct g3 ->
  dec sk ct = Some u.
Proof.
move=> /key_genP keys; case: pk keys => G1 G2 keys.
rewrite /enc /bind /draw; case: (random_vector n g2) => e g4 [<- _].
exact: (dec_derived u e keys).
Qed.

(** C2 (attack, full-rank case).  For every key pair that [key_gen]
    returns and every ciphertext [ct] of a plaintext [u], if the matrix
    [Gmult] assembled by [attack] has rank [n], then [attack] returns [u]
    as its particular solution and a block of free columns with no
    column. *)
Theorem attack_recovers_plaintext fuel g pk sk g1 (u : 'rV[R]_k) g2 ct g3 :
  key_gen fuel g = Returns (pk, sk) g1 ->
  enc pk u g2 = Returns ct g3 ->
  rank (G_mult pk) = n ->
  (attack pk ct).1 = u^T /\ ncols (attack pk ct).2 = 0%N.
Proof.
move=> /key_genP keys; case: pk keys => G1 G2 keys.
rewrite /enc /bind /draw; case: (random_vector n g2) => e g4 [<- _].
exact: (attack_derived u e keys).
Qed.

(** The reading of "the nonzero rows of rref(G2)": every nonzero row of the
    reduced [G2] is a row of the matrix that [attack] keeps, and that
    matrix has no zero row. *)
Definition exactly_nonzero_rows (G2 : 'M[R]_n) : Prop :=
  (forall i, row i (rref G2) != 0 ->
     exists i', row i' (G2_reduced G2) = row i (rref G2)) /\
  (forall i', row i' (G2_reduced G2) != 0).

(** C3, amended.  [attack] keeps the first [n - k] rows of the reduced
    [G2]; when [G2] has rank [n - k] these are exactly the nonzero rows of
    the reduced matrix. *)
Theorem G2_reduced_nonzero_rows (pk : public_key) :
  rank pk.2 = (n - k)%N -> exactly_nonzero_rows pk.2.
Proof.
case: pk => G1 G2 /= rk2; split=> [i nz | i'].
- have lt_i : (i < n - k)%N.
    rewrite -rk2 ltnNge; apply: contra nz => ge_i.
    by apply/eqP/rowP => l; rewrite !mxE rref_zero_row.
  exists (Ordinal lt_i); rewrite /G2_reduced row_rowsub.
  by congr (row _ _); apply: val_inj.
- pose t : 'I_(size (pivots G2)) := cast_ord (esym rk2) i'.
  apply/negP => /eqP /rowP /(_ (tnth (in_tuple (pivots G2)) t)).
  rewrite /G2_reduced row_rowsub !mxE rref_pivot_col ?mem_tnth //.
  by rewrite index_tnth_pivots /= eqxx; apply/eqP; rewrite oner_eq0.
Qed.

(** C4, amended.  [dec] has no consistency check and no failure for an
    unsolvable system: once the inverses of [M], [GJ] and [T] exist, so that
    [uG] is computed, [dec] returns a plaintext; when [G] has rank [k] and
    [G^T x = uG^T] has no solution, that plaintext is the zero vector. *)
Theorem dec_without_consistency_check G M T Q G0 J ct uG :
  dec_uG (G, M, T, Q, G0, J) ct = Some uG ->
  dec (G, M, T, Q, G0, J) ct = Some (dec_solve G uG) /\
  (rank G = k -> (forall u : 'rV[R]_k, u *m G <> uG) ->
   dec (G, M, T, Q, G0, J) ct = Some 0).
Proof.
move=> euG; have eD : dec (G, M, T, Q, G0, J) ct = Some (dec_solve G uG).
  by rewrite decE euG.
split=> // rkG nsol; rewrite eD dec_solve_inconsistent -?rankE //.
by apply/negP => /submxP [u eu]; case: (nsol u).
Qed.

(** C5, amended.  [random_nonsingular_matrix] is an unbounded rejection
    loop: it never raises; it returns the first sample of full rank, after
    as many iterations as there are rejected samples before it; and when no
    sample has full rank no number of iterations makes it return. *)
Theorem rejection_sampling_unbounded fuel r c g :
  random_nonsingular_matrix fuel r c g <> Raises /\
  (forall i,
     (forall j, (j < i)%N -> ~~ full_rank (nth_draw r c j g).1) ->
     full_rank (nth_draw r c i g).1 ->
     random_nonsingular_matrix fuel r c g =
     if (i < fuel)%N then Returns (nth_draw r c i g).1 (nth_draw r c i g).2
     else OutOfFuel) /\
  ((forall j, ~~ full_rank (nth_draw r c j g).1) ->
   random_nonsingular_matrix fuel r c g = OutOfFuel).
Proof.
split; first exact: rnm_not_raises.
split=> [i rej acc | rej]; last by apply: rnm_rejects => j _.
case: ltnP => [lt_i | ge_i]; first exact: rnm_returns_at.
by apply: rnm_rejects => j lt_j; apply: rej; apply: leq_trans lt_j ge_i.
Qed.

(** C6 (pivot invertibility).  For a [k x n] matrix [G] of rank [k], the
    pivot columns [J] of its reduction are [k] in number and the submatrix
    of [G] on the columns [J] has an inverse. *)
Theorem pivot_invertibility (G : 'M[R]_(k, n)) :
  rank G = k ->
  size (pivots G) = k /\
  exists B, [/\ inverse (matrix_from_columns G (pivots G)) = Some B,
                matrix_from_columns G (pivots G) *m B = 1%:M
              & B *m matrix_from_columns G (pivots G) = 1%:M].
Proof.
rewrite rankE => /pivot_columns_invertible [szJ [B eB]]; split=> //.
by exists B; have [] := inverseP eB.
Qed.

(** C7 (rank bound).  For every key pair that [key_gen] returns, [Q] has
    rank at most [n - k], and so has the public matrix [G2]. *)
Theorem key_gen_rank_bound fuel g G1 G2 G M T Q G0 J g1 :
  key_gen fuel g = Returns ((G1, G2), (G, M, T, Q, G0, J)) g1 ->
  (rank Q <= n - k)%N /\ (rank G2 <= n - k)%N.
Proof. by move=> /key_genP /derived_rank_bound; rewrite !rankE. Qed.

(** C8 (kernel).  Every row [r] of the right kernel matrix of [A]
    satisfies [A * r^T = 0]; the matrix has [n - rank(A)] rows, and they
    are linearly independent. *)
Theorem right_kernel_correct m (A : 'M[R]_(m, n)) :
  [/\ forall i, A *m (row i (right_kernel_matrix A))^T = 0,
      size (free_columns A) = (n - rank A)%N
    & row_free (right_kernel_matrix A)].
Proof.
split; last exact: right_kernel_free; last by rewrite rankE size_free_columns.
by move=> i; rewrite rowE trmx_mul mulmxA mul_right_kernel mul0mx.
Qed.

(** C9 (rank of a product).  The rank of [A * B] is at most the rank of
    [A] and at most the rank of [B]. *)
Theorem rank_mul_le m p q (A : 'M[R]_(m, p)) (B : 'M[R]_(p, q)) :
  (rank (A *m B) <= minn (rank A) (rank B))%N.
Proof. by rewrite !rankE leq_min mxrankM_maxl mxrankM_maxr. Qed.

(** C10 (the component [Q] is not used).  Two secret keys that differ only
    in [Q] decrypt every ciphertext alike. *)
Theorem dec_independent_of_Q G M T Q Q' G0 J ct :
  dec (G, M, T, Q, G0, J) ct = dec (G, M, T, Q', G0, J) ct.
Proof. by []. Qed.

(** ** Further properties of the code *)

(** *** [random_nonsingular_matrix] *)

(** What [random_nonsingular_matrix] returns is one of the samples it drew:
    the first one of full rank, with the generator state that follows
    it. *)
Theorem random_nonsingular_matrix_returns fuel r c g G g' :
  random_nonsingular_matrix fuel r c g = Returns G g' ->
  exists i,
    [/\ (i < fuel)%N, nth_draw r c i g = (G, g'), rank G = minn r c
      & forall j, (j < i)%N -> ~~ full_rank (nth_draw r c j g).1].
Proof.
elim: fuel g => [|fuel IH] g //=; rewrite /bind /draw.
case e: (random_matrix r c g) => [G1 g1]; case: ifP => [full [<- <-] | rej].
  by exists 0%N; split=> //; exact/eqP.
move=> /IH [i [lt_i e_i rk_i rej_i]]; exists i.+1; split=> //=.
- by rewrite e.
- by case=> [_ | j lt_j]; rewrite /= e /full_rank ?rej //; exact: rej_i.
Qed.

Lemma rnm_returns_within fuel r c g :
  (exists2 i, (i < fuel)%N & full_rank (nth_draw r c i g).1) ->
  exists G g', random_nonsingular_matrix fuel r c g = Returns G g'.
Proof.
elim: fuel g => [|fuel IH] g [i lt_i full_i] //=; rewrite /bind /draw.
case e: (random_matrix r c g) => [G1 g1]; case: ifP => [_ | rej].
  by exists G1, g1.
apply: IH; case: i lt_i full_i => [_ | i lt_i]; rewrite /= e.
  by rewrite /full_rank /= rej.
by exists i.
Qed.

(** *** [key_gen] *)

Lemma key_gen_no_raise fuel g : key_gen fuel g <> Raises.
Proof.
rewrite /key_gen /bind.
case eG: (random_nonsingular_matrix fuel k n g) => [G g1| |] //;
  last by case: (rnm_not_raises eG).
have [G0 [g2 [-> G0G]]] := @fill_rowsP G (enum 'I_n) 0 g1 (sub0mx _ _).
case eT: (random_nonsingular_matrix fuel n n g2) => [T g3| |] //;
  last by case: (rnm_not_raises eT).
case eL: (random_nonsingular_matrix fuel n (n - k) g3) => [L g4| |] //;
  last by case: (rnm_not_raises eL).
have rkG : \rank G = k by rewrite (rnm_full_rank eG) (minn_idPl le_kn).
have uT : T \in unitmx := full_rank_unit (rnm_full_rank eT).
have [Q ->] := mul_dyn_conform L (right_kernel_matrix
  (matrix_from_columns T (pivots G))^T) (esym (kernel_rows rkG uT)).
rewrite /check.
case eM: (random_nonsingular_matrix fuel n n g4) => [M g5| |] //.
by case: (rnm_not_raises eM).
Qed.

(** [key_gen] never raises: the product [L * HJ] always has matching inner
    dimensions, because [HJ] has exactly [n - k] rows. *)
Theorem key_gen_never_raises fuel g : key_gen fuel g <> Raises.
Proof. exact: key_gen_no_raise. Qed.

(** [key_gen] returns as soon as each sampling loop is given enough
    iterations to meet a sample of full rank. *)
Theorem key_gen_returns_within fuel g :
  (forall r c g1, exists2 i, (i < fuel)%N & full_rank (nth_draw r c i g1).1) ->
  exists pk sk g', key_gen fuel g = Returns (pk, sk) g'.
Proof.
move=> full; rewrite /key_gen /bind.
have [G [g1 eG]] := rnm_returns_within (full k n g); rewrite eG.
have [G0 [g2 [-> G0G]]] := @fill_rowsP G (enum 'I_n) 0 g1 (sub0mx _ _).
have [T [g3 eT]] := rnm_returns_within (full n n g2); rewrite eT.
have [L [g4 ->]] := rnm_returns_within (full n (n - k)%N g3).
have rkG : \rank G = k by rewrite (rnm_full_rank eG) (minn_idPl le_kn).
have uT : T \in unitmx := full_rank_unit (rnm_full_rank eT).
have [Q ->] := mul_dyn_conform L (right_kernel_matrix
  (matrix_from_columns T (pivots G))^T) (esym (kernel_rows rkG uT)).
rewrite /check; have [M [g5 ->]] := rnm_returns_within (full n n g4).
by rewrite /ret; do 3!eexists.
Qed.

(** A generated key pair is well formed: [G] and [G1] have rank [k], [J]
    lists [k] pivot columns, and the three inverses that [dec] takes
    exist. *)
Theorem key_gen_well_formed fuel g G1 G2 G M T Q G0 J g1 :
  key_gen fuel g = Returns ((G1, G2), (G, M, T, Q, G0, J)) g1 ->
  [/\ rank G = k, rank G1 = k, size J = k
    & [/\ inverse M = Some (invmx M), inverse T = Some (invmx T)
        & exists B, inverse (matrix_from_columns G J) = Some B]].
Proof.
move=> /key_genP [[rkG -> G0G uT uM] [-> _ _]].
have [szJ invGJ] := pivot_columns_invertible rkG.
split=> //; first by rewrite rankE mxrankMfree ?row_free_unit.
by split=> //; exact: inverse_unit.
Qed.

(** Every row of the secret matrix [G0] is a codeword of [G]. *)
Theorem key_gen_G0_codewords fuel g G1 G2 G M T Q G0 J g1 :
  key_gen fuel g = Returns ((G1, G2), (G, M, T, Q, G0, J)) g1 ->
  forall i, exists v : 'rV[R]_k, row i G0 = v *m G.
Proof.
move=> /key_genP [[_ _ G0G _ _] _] i.
by have /submxP [v ev] := submx_trans (row_sub i G0) G0G; exists v.
Qed.

(** The trapdoor: the columns [J] of [Q * T] are zero, which is what lets
    [dec] read [u + e Q V] off the positions [J] of [y]. *)
Theorem key_gen_trapdoor fuel g G1 G2 G M T Q G0 J g1 :
  key_gen fuel g = Returns ((G1, G2), (G, M, T, Q, G0, J)) g1 ->
  matrix_from_columns (Q *m T) J = 0.
Proof.
move=> /key_genP [_ [_ _ [L [H [-> _ _ HTJ]]]]].
by rewrite matrix_from_columnsE -!mulmxA -matrix_from_columnsE HTJ mulmx0.
Qed.

(** The public matrix [G2] of a generated key has rank exactly [n - k]. *)
Theorem key_gen_rank_G2 fuel g pk sk g1 :
  key_gen fuel g = Returns (pk, sk) g1 -> rank pk.2 = (n - k)%N.
Proof. by move=> /key_genP /derived_rank_G2; rewrite rankE. Qed.

(** For a generated key the matrix [Gmult] that [attack] assembles always
    has rank [n]. *)
Theorem key_gen_G_mult_full_rank fuel g pk sk g1 :
  key_gen fuel g = Returns (pk, sk) g1 -> rank (G_mult pk) = n.
Proof. by move=> /key_genP /derived_full_rank. Qed.

(** *** [dec] and [attack] *)

(** With a generated key every vector is a ciphertext. *)
Lemma derived_decompose pk sk (ct : 'rV[R]_n) :
  derived_keys pk sk -> exists u e, ct = u *m pk.1 + e *m pk.2.
Proof.
move=> keys; have rkn := derived_full_rank keys.
have [_ rk2] := derived_rank_bound keys.
case: pk rkn rk2 {keys} => G1 G2 /= rkn rk2.
have full : row_full (col_mx G1 (G2_reduced G2)).
  by rewrite /row_full -mxrank_tr tr_col_mx -rankE; apply/eqP.
have /submxP [z ez] : (ct <= col_mx G1 (G2_reduced G2))%MS.
  by rewrite submx_full.
have /submxP [D eD] : (G2_reduced G2 <= G2)%MS.
  by rewrite (G2_reduced_eqmx rk2).2.
exists (lsubmx z), (rsubmx z *m D).
by rewrite ez -[z in LHS]hsubmxK mul_row_col -mulmxA -eD.
Qed.

(** For a generated key the attack recovers the plaintext of every
    ciphertext, with no free column: no rank condition is needed. *)
Theorem attack_always_recovers fuel g pk sk g1 (u : 'rV[R]_k) g2 ct g3 :
  key_gen fuel g = Returns (pk, sk) g1 ->
  enc pk u g2 = Returns ct g3 ->
  (attack pk ct).1 = u^T /\ ncols (attack pk ct).2 = 0%N.
Proof.
move=> /key_genP keys; have rk := derived_full_rank keys.
case: pk keys rk => G1 G2 keys rk.
rewrite /enc /bind /draw; case: (random_vector n g2) => e g4 [<- _].
exact: (attack_derived u e keys rk).
Qed.

(** For a generated key, [attack] computes from the public key what [dec]
    computes from the secret key, on every vector of length [n]. *)
Theorem attack_computes_dec fuel g pk sk g1 (ct : 'rV[R]_n) :
  key_gen fuel g = Returns (pk, sk) g1 ->
  exists u, [/\ dec sk ct = Some u, (attack pk ct).1 = u^T
               & ncols (attack pk ct).2 = 0%N].
Proof.
move=> /key_genP keys; have rk := derived_full_rank keys.
have [u [e ->]] := derived_decompose ct keys; exists u.
have [-> ->] := attack_derived u e keys rk.
by rewrite dec_derived.
Qed.

(** Decryption is linear on ciphertexts: a linear combination of two
    ciphertexts decrypts to the same combination of their plaintexts. *)
Theorem dec_linear fuel g pk sk g1 (a : R) (u1 u2 : 'rV[R]_k)
    ga ct1 gb gc ct2 gd :
  key_gen fuel g = Returns (pk, sk) g1 ->
  enc pk u1 ga = Returns ct1 gb -> enc pk u2 gc = Returns ct2 gd ->
  dec sk (a *: ct1 + ct2) = Some (a *: u1 + u2).
Proof.
move=> /key_genP keys; case: pk keys => G1 G2 keys.
rewrite /enc /bind /draw; case: (random_vector n ga) => e1 ge [<- _].
case: (random_vector n gc) => e2 gf [<- _].
have -> : a *: (u1 *m G1 + e1 *m G2) + (u2 *m G1 + e2 *m G2) =
          (a *: u1 + u2) *m G1 + (a *: e1 + e2) *m G2.
  by rewrite scalerDr !scalemxAl !mulmxDl addrACA.
exact: (dec_derived _ _ keys).
Qed.

(** The elimination in [dec] is exact: on the ciphertext of [u] under a
    generated key, the variable [uG] is the codeword [u * G]. *)
Theorem dec_isolates_codeword fuel g G1 G2 G M T Q G0 J g1
    (u : 'rV[R]_k) g2 ct g3 :
  key_gen fuel g = Returns ((G1, G2), (G, M, T, Q, G0, J)) g1 ->
  enc (G1, G2) u g2 = Returns ct g3 ->
  dec_uG (G, M, T, Q, G0, J) ct = Some (u *m G).
Proof.
move=> /key_genP keys.
rewrite /enc /bind /draw; case: (random_vector n g2) => e g4 [<- _].
exact: (dec_uG_derived u e keys).
Qed.

Lemma inverse_nonsquare a b (A : 'M[R]_(a, b)) : a <> b -> inverse A = None.
Proof. by rewrite /inverse; case: eqP. Qed.


(** [dec] raises when [J] does not list exactly [k] columns: [GJ] is then
    not square. *)
Theorem dec_raises_on_pivot_count G M T Q G0 J ct :
  size J <> k -> dec (G, M, T, Q, G0, J) ct = None.
Proof.
move=> szJ; rewrite /dec; case: (inverse M) => // Minv.
by rewrite inverse_nonsquare // => e; apply: szJ.
Qed.

(** When [G] has rank [k] and the variable [uG] of [dec] is the codeword
    [u * G], [dec] returns [u]: the last system has [u] as its only
    solution. *)
Theorem dec_returns_solution G M T Q G0 J ct (u : 'rV[R]_k) :
  dec_uG (G, M, T, Q, G0, J) ct = Some (u *m G) -> rank G = k ->
  dec (G, M, T, Q, G0, J) ct = Some u.
Proof.
by move=> euG rkG; rewrite decE euG /= dec_solve_codeword // -rankE.
Qed.

(** For any public key whose [Gmult] has rank [n], [attack] solves
    [ct = u * G1 + w * G2red] for [u], with no free column. *)
Theorem attack_solves G1 G2 (u : 'rV[R]_k) (w : 'rV[R]_(n - k)) :
  rank (G_mult (G1, G2)) = n ->
  (attack (G1, G2) (u *m G1 + w *m G2_reduced G2)).1 = u^T /\
  ncols (attack (G1, G2) (u *m G1 + w *m G2_reduced G2)).2 = 0%N.
Proof.
move=> /= rkn; split; last by rewrite /ncols /attack /= rkn subnKC // subnn.
apply/colP => i; rewrite /attack /= !mxE.
have -> : (u *m G1 + w *m G2_reduced G2)^T =
    G_mult (G1, G2) *m col_mx u^T w^T.
  by rewrite /G_mult mul_row_col -!trmx_mul -raddfD.
rewrite (@rref_augment_solution _ _ _ _ _ _ (lshift (n - k) i)) //.
  by rewrite -rankE rkn subnKC.
by rewrite col_mxEu mxE.
Qed.

(** When [G2] has rank at most [n - k], the rows that [attack] keeps span
    the row space of [G2]: the slice [[:n-k]] loses nothing. *)
Theorem G2_reduced_row_space (G2 : 'M[R]_n) :
  (rank G2 <= n - k)%N -> (G2_reduced G2 :=: G2)%MS.
Proof. by rewrite rankE; exact: G2_reduced_eqmx. Qed.

(** *** The harness [test] *)

(** One pass of the loop of [test] (lines 201-237), without its timers: the
    value of the counter [fail] after the pass. *)
Definition test_pass (fuel : nat) (fail : nat) : randomized nat :=
  let* keys := key_gen fuel in
  let* u := draw (random_vector k) in
  let* ct := enc keys.1 u in
  let* u0 := check (dec keys.2 ct) in
  let sln := attack keys.1 ct in
  let num_of_sol := ncols sln.2 in
  ret (if num_of_sol != 0%N then fail.+1 else fail).

Fixpoint test_loop (fuel : nat) (passes : nat) (fail : nat) :
    randomized nat :=
  if passes is passes'.+1 then
    let* fail' := test_pass fuel fail in
    test_loop fuel passes' fail'
  else ret fail.

(** The counter [fail] that [test] returns after its 100 passes, the last
    component of its result; the four lists of wall-clock durations are
    not modelled. *)
Definition test_fail (fuel : nat) : randomized nat := test_loop fuel 100 0.

Lemma test_passP fuel fail g :
  match test_pass fuel fail g with
  | Returns fail' _ => fail' = fail
  | Raises => False
  | OutOfFuel => True
  end.
Proof.
rewrite /test_pass /bind.
case eK: (key_gen fuel g) => [[pk sk] g1| |] //;
  last by case: (key_gen_no_raise eK).
have keys := key_genP eK; have rk := derived_full_rank keys.
rewrite /draw; case: (random_vector k g1) => u g2 /=.
case: pk keys rk {eK} => G1 G2 keys rk.
rewrite /enc /bind /draw; case: (random_vector n g2) => e g3 /=.
rewrite (dec_derived u e keys) /=.
by have [_ /= ->] := attack_derived u e keys rk.
Qed.

Lemma test_loopP fuel passes fail g :
  match test_loop fuel passes fail g with
  | Returns fail' _ => fail' = fail
  | Raises => False
  | OutOfFuel => True
  end.
Proof.
elim: passes fail g => [|passes IH] fail g //=; rewrite /bind.
case: (test_pass fuel fail g) (test_passP fuel fail g) => // f g1 ->.
exact: IH.
Qed.

(** [test] never counts a failure and never raises: whenever it returns,
    its counter [fail] is 0. *)
Theorem test_counts_no_failure fuel g :
  test_fail fuel g <> Raises /\
  forall fail g', test_fail fuel g = Returns fail g' -> fail = 0%N.
Proof.
have := test_loopP fuel 100 0 g; rewrite /test_fail.
by case: (test_loop fuel 100 0 g) => // fail g' ->; split=> // f g1 [].
Qed.

End Scheme.

Arguments Raises {rng T}.
Arguments OutOfFuel {rng T}.

(** ** A concrete instance: the field of the script, GF(2), with [n = 2]
    and [k = 1], and generators that always draw the same sample. *)

Definition sample_identity r c (g : unit) : 'M['F_2]_(r, c) * unit :=
  (pid_mx (minn r c), g).

Definition sample_zero r c (g : unit) : 'M['F_2]_(r, c) * unit := (0, g).

Definition sample_zero_vector len (g : unit) : 'rV['F_2]_len * unit := (0, g).

Lemma le_1_2 : (1 <= 2)%N.
Proof. by []. Qed.

Lemma sample_identity_full r c g : full_rank (sample_identity r c g).1.
Proof. by rewrite /full_rank /= rankE rank_pid_mx ?geq_minl ?geq_minr. Qed.

Lemma sample_zero_rejected j : ~~ full_rank (nth_draw sample_zero 1 1 j tt).1.
Proof.
have -> : nth_draw sample_zero 1 1 j tt = (0, tt) by elim: j.
by rewrite /full_rank /= rankE mxrank0.
Qed.

(** A secret key whose [G0] is not made of codewords, and a vector that it
    cannot decrypt. *)
Definition bad_key : secret_key 'F_2 2 1 :=
  (pid_mx 1, 1%:M, 1%:M, 0, 1%:M, [:: ord0]).

Definition bad_ct : 'rV['F_2]_2 := delta_mx ord0 ord_max.

Lemma bad_key_uG : dec_uG bad_key bad_ct = Some (- bad_ct).
Proof.
have inv1 d : inverse (1%:M : 'M['F_2]_d) = Some 1%:M.
  by rewrite inverse_unit ?unitmx1 // invmx1.
have GJ1 : matrix_from_columns (pid_mx 1 : 'M['F_2]_(1, 2)) [:: ord0] = 1%:M.
  by apply/matrixP => i j; rewrite !mxE !ord1.
have yJ0 : matrix_from_columns bad_ct [:: ord0] = 0.
  by apply/matrixP => i j; rewrite !mxE !ord1.
rewrite /dec_uG /bad_key inv1 mulmx1 GJ1 inv1 yJ0.
by rewrite !mul0mx subr0 !mulmx1 subrr sub0r.
Qed.

Lemma bad_key_unsolvable (u : 'rV['F_2]_1) : u *m pid_mx 1 <> - bad_ct.
Proof.
move=> /matrixP /(_ ord0 ord_max); rewrite !mxE big_ord1 !mxE /= mulr0.
by move/eqP; rewrite eq_sym oppr_eq0 oner_eq0.
Qed.

Lemma bad_key_rank : rank (pid_mx 1 : 'M['F_2]_(1, 2)) = 1%N.
Proof. by rewrite rankE rank_pid_mx. Qed.

(** *** The properties at the concrete instance *)

(** C1 at GF(2), [n = 2], [k = 1]: the key pair generated from the constant
    generator decrypts the ciphertext of the plaintext [(1)]. *)
Lemma dec_enc_round_trip_witness :
  exists pk sk ct,
    [/\ key_gen 2 1 sample_identity sample_zero_vector 1 tt =
          Returns (pk, sk) tt,
        enc sample_zero_vector pk (const_mx 1) tt = Returns ct tt
      & dec le_1_2 sk ct = Some (const_mx 1)].
Proof.
have [pk [sk [[] e]]] :=
  key_gen_returns le_1_2 sample_zero_vector 0 tt sample_identity_full.
exists pk, sk, (const_mx 1 *m pk.1 + 0 *m pk.2).
have eE : enc sample_zero_vector pk (const_mx 1) tt =
    Returns (const_mx 1 *m pk.1 + 0 *m pk.2) tt by case: pk {e}.
split=> //; exact: (dec_enc_round_trip le_1_2 e eE).
Defined.

(** C2 at the same instance: the assembled matrix has rank 2 and the attack
    returns the plaintext with no free column. *)
Lemma attack_recovers_plaintext_witness :
  exists pk sk ct,
    [/\ key_gen 2 1 sample_identity sample_zero_vector 1 tt =
          Returns (pk, sk) tt,
        enc sample_zero_vector pk (const_mx 1) tt = Returns ct tt,
        rank (G_mult pk) = 2%N
      & (attack le_1_2 pk ct).1 = (const_mx 1)^T /\
        ncols (attack le_1_2 pk ct).2 = 0%N].
Proof.
have [pk [sk [[] e]]] :=
  key_gen_returns le_1_2 sample_zero_vector 0 tt sample_identity_full.
exists pk, sk, (const_mx 1 *m pk.1 + 0 *m pk.2).
have eE : enc sample_zero_vector pk (const_mx 1) tt =
    Returns (const_mx 1 *m pk.1 + 0 *m pk.2) tt by case: pk {e}.
have rk := derived_full_rank le_1_2 (key_genP le_1_2 e).
split=> //; exact: (attack_recovers_plaintext le_1_2 e eE rk).
Defined.

(** C3 as stated fails: for the public key whose [G2] is zero, with
    [n = 2] and [k = 1], the matrix that [attack] keeps is a zero row. *)
Lemma G2_reduced_keeps_zero_rows :
  ~ exactly_nonzero_rows 1 ((0, 0) : public_key 'F_2 2 1).2.
Proof.
case=> _ /(_ ord0) /negP; apply.
by apply/eqP/rowP => j; rewrite /G2_reduced !mxE /= rref0 mxE.
Qed.

(** C3, amended, at a public key whose [G2] has rank [n - k = 1]. *)
Lemma G2_reduced_nonzero_rows_witness :
  rank ((0, pid_mx 1) : public_key 'F_2 2 1).2 = (2 - 1)%N /\
  exactly_nonzero_rows 1 ((0, pid_mx 1) : public_key 'F_2 2 1).2.
Proof.
have rk : rank ((0, pid_mx 1) : public_key 'F_2 2 1).2 = (2 - 1)%N.
  by rewrite rankE rank_pid_mx.
split=> //; exact: (G2_reduced_nonzero_rows rk).
Defined.

(** C4 as stated fails: for [bad_key] and [bad_ct] the last system has no
    solution, and [dec] returns the zero plaintext. *)
Lemma dec_returns_on_unsolvable_system :
  exists uG,
    [/\ dec_uG bad_key bad_ct = Some uG,
        forall u : 'rV['F_2]_1, u *m pid_mx 1 <> uG
      & dec le_1_2 bad_key bad_ct = Some 0].
Proof.
exists (- bad_ct); split; first exact: bad_key_uG.
  exact: bad_key_unsolvable.
rewrite decE bad_key_uG /= dec_solve_inconsistent //.
  by rewrite -rankE bad_key_rank.
by apply/negP => /submxP [u /esym /bad_key_unsolvable].
Qed.

(** C4, amended, at [bad_key] and [bad_ct]. *)
Lemma dec_without_consistency_check_witness :
  dec le_1_2 bad_key bad_ct = Some 0.
Proof.
exact: (dec_without_consistency_check le_1_2 bad_key_uG).2
         bad_key_rank bad_key_unsolvable.
Defined.

(** C5 as stated fails: with a generator that only draws the zero matrix,
    no number of iterations makes the loop return a sample or raise. *)
Lemma rejection_sampling_never_returns :
  ~ exists fuel,
      random_nonsingular_matrix sample_zero fuel 1 1 tt <> OutOfFuel.
Proof.
case=> fuel; apply; apply: rnm_rejects => j _; exact: sample_zero_rejected.
Qed.

(** C6 at the generator matrix [(1 0)]. *)
Lemma pivot_invertibility_witness :
  size (pivots (pid_mx 1 : 'M['F_2]_(1, 2))) = 1%N /\
  exists B,
    [/\ inverse (matrix_from_columns (pid_mx 1 : 'M['F_2]_(1, 2))
                   (pivots (pid_mx 1 : 'M['F_2]_(1, 2)))) = Some B,
        matrix_from_columns (pid_mx 1 : 'M['F_2]_(1, 2))
          (pivots (pid_mx 1 : 'M['F_2]_(1, 2))) *m B = 1%:M
      & B *m matrix_from_columns (pid_mx 1 : 'M['F_2]_(1, 2))
               (pivots (pid_mx 1 : 'M['F_2]_(1, 2))) = 1%:M].
Proof. exact: (pivot_invertibility bad_key_rank). Defined.

(** C7 at the key pair generated from the constant generator. *)
Lemma key_gen_rank_bound_witness :
  exists G1 G2 G M T Q G0 J,
    key_gen 2 1 sample_identity sample_zero_vector 1 tt =
      Returns ((G1, G2), (G, M, T, Q, G0, J)) tt /\
    (rank Q <= 2 - 1)%N /\ (rank G2 <= 2 - 1)%N.
Proof.
have [[G1 G2] [[[[[[G M] T] Q] G0] J] [[] e]]] :=
  key_gen_returns le_1_2 sample_zero_vector 0 tt sample_identity_full.
exists G1, G2, G, M, T, Q, G0, J; split=> //.
exact: (key_gen_rank_bound le_1_2 e).
Defined.

(** C10 at [bad_key], with [Q = 0] replaced by the identity. *)
Lemma dec_independent_of_Q_witness :
  dec le_1_2 bad_key bad_ct =
  dec le_1_2 ((pid_mx 1, 1%:M, 1%:M, 1%:M, 1%:M, [:: ord0])
              : secret_key 'F_2 2 1) bad_ct.
Proof. exact: (dec_independent_of_Q le_1_2). Defined.

(** *** The further properties at the concrete instance *)

Lemma sample_key_gen :
  exists pk sk,
    key_gen 2 1 sample_identity sample_zero_vector 1 tt = Returns (pk, sk) tt.
Proof.
have [pk [sk [[] e]]] :=
  key_gen_returns le_1_2 sample_zero_vector 0 tt sample_identity_full.
by exists pk, sk.
Qed.

Lemma sample_enc (pk : public_key 'F_2 2 1) (u : 'rV['F_2]_1) :
  enc sample_zero_vector pk u tt = Returns (u *m pk.1 + 0 *m pk.2) tt.
Proof. by case: pk. Qed.

Lemma sample_identity_first r c g :
  exists2 i, (i < 1)%N & full_rank (nth_draw sample_identity r c i g).1.
Proof. by exists 0%N => //; exact: sample_identity_full. Qed.

Lemma random_nonsingular_matrix_returns_witness :
  exists G,
    random_nonsingular_matrix sample_identity 1 2 2 tt = Returns G tt /\
    exists i,
      [/\ (i < 1)%N, nth_draw sample_identity 2 2 i tt = (G, tt),
          rank G = minn 2 2
        & forall j, (j < i)%N ->
            ~~ full_rank (nth_draw sample_identity 2 2 j tt).1].
Proof.
have e : random_nonsingular_matrix sample_identity 1 2 2 tt =
    Returns (pid_mx (minn 2 2)) tt.
  by rewrite (@rnm_returns_at _ _ _ 2 2 0) //; exact: sample_identity_full.
exists (pid_mx (minn 2 2)); split=> //.
exact: (random_nonsingular_matrix_returns e).
Defined.

Lemma key_gen_never_raises_witness :
  key_gen 2 1 sample_identity sample_zero_vector 1 tt <> Raises.
Proof. exact: (key_gen_never_raises le_1_2). Defined.

Lemma key_gen_returns_within_witness :
  exists pk sk g',
    key_gen 2 1 sample_identity sample_zero_vector 1 tt = Returns (pk, sk) g'.
Proof.
exact: (key_gen_returns_within le_1_2 sample_zero_vector tt
          sample_identity_first).
Defined.

Lemma key_gen_well_formed_witness :
  exists G1 G2 G M T Q G0 J,
    key_gen 2 1 sample_identity sample_zero_vector 1 tt =
      Returns ((G1, G2), (G, M, T, Q, G0, J)) tt /\
    [/\ rank G = 1%N, rank G1 = 1%N, size J = 1%N
      & [/\ inverse M = Some (invmx M), inverse T = Some (invmx T)
          & exists B, inverse (matrix_from_columns G J) = Some B]].
Proof.
have [[G1 G2] [[[[[[G M] T] Q] G0] J] e]] := sample_key_gen.
exists G1, G2, G, M, T, Q, G0, J; split=> //.
exact: (key_gen_well_formed le_1_2 e).
Defined.

Lemma key_gen_G0_codewords_witness :
  exists G1 G2 G M T Q G0 J,
    key_gen 2 1 sample_identity sample_zero_vector 1 tt =
      Returns ((G1, G2), (G, M, T, Q, G0, J)) tt /\
    forall i, exists v : 'rV['F_2]_1, row i G0 = v *m G.
Proof.
have [[G1 G2] [[[[[[G M] T] Q] G0] J] e]] := sample_key_gen.
exists G1, G2, G, M, T, Q, G0, J; split=> //.
exact: (key_gen_G0_codewords le_1_2 e).
Defined.

Lemma key_gen_trapdoor_witness :
  exists G1 G2 G M T Q G0 J,
    key_gen 2 1 sample_identity sample_zero_vector 1 tt =
      Returns ((G1, G2), (G, M, T, Q, G0, J)) tt /\
    matrix_from_columns (Q *m T) J = 0.
Proof.
have [[G1 G2] [[[[[[G M] T] Q] G0] J] e]] := sample_key_gen.
exists G1, G2, G, M, T, Q, G0, J; split=> //.
exact: (key_gen_trapdoor le_1_2 e).
Defined.

Lemma key_gen_rank_G2_witness :
  exists pk sk,
    key_gen 2 1 sample_identity sample_zero_vector 1 tt =
      Returns (pk, sk) tt /\
    rank pk.2 = (2 - 1)%N.
Proof.
have [pk [sk e]] := sample_key_gen; exists pk, sk; split=> //.
exact: (key_gen_rank_G2 le_1_2 e).
Defined.

Lemma key_gen_G_mult_full_rank_witness :
  exists pk sk,
    key_gen 2 1 sample_identity sample_zero_vector 1 tt =
      Returns (pk, sk) tt /\
    rank (G_mult pk) = 2%N.
Proof.
have [pk [sk e]] := sample_key_gen; exists pk, sk; split=> //.
exact: (key_gen_G_mult_full_rank le_1_2 e).
Defined.

Lemma attack_always_recovers_witness :
  exists pk sk ct,
    [/\ key_gen 2 1 sample_identity sample_zero_vector 1 tt =
          Returns (pk, sk) tt,
        enc sample_zero_vector pk (const_mx 1) tt = Returns ct tt
      & (attack le_1_2 pk ct).1 = (const_mx 1)^T /\
        ncols (attack le_1_2 pk ct).2 = 0%N].
Proof.
have [pk [sk e]] := sample_key_gen.
exists pk, sk, (const_mx 1 *m pk.1 + 0 *m pk.2).
split=> //; first exact: sample_enc.
exact: (attack_always_recovers le_1_2 e (sample_enc pk (const_mx 1))).
Defined.

Lemma attack_computes_dec_witness :
  exists pk sk,
    key_gen 2 1 sample_identity sample_zero_vector 1 tt =
      Returns (pk, sk) tt /\
    exists u, [/\ dec le_1_2 sk bad_ct = Some u,
                  (attack le_1_2 pk bad_ct).1 = u^T
                & ncols (attack le_1_2 pk bad_ct).2 = 0%N].
Proof.
have [pk [sk e]] := sample_key_gen; exists pk, sk; split=> //.
exact: (attack_computes_dec le_1_2 bad_ct e).
Defined.

Lemma dec_linear_witness :
  exists pk sk ct1 ct2,
    [/\ key_gen 2 1 sample_identity sample_zero_vector 1 tt =
          Returns (pk, sk) tt,
        enc sample_zero_vector pk (const_mx 1) tt = Returns ct1 tt,
        enc sample_zero_vector pk 0 tt = Returns ct2 tt
      & dec le_1_2 sk (1 *: ct1 + ct2) = Some (1 *: const_mx 1 + 0)].
Proof.
have [pk [sk e]] := sample_key_gen.
exists pk, sk, (const_mx 1 *m pk.1 + 0 *m pk.2), (0 *m pk.1 + 0 *m pk.2).
split=> //; try exact: sample_enc.
exact: (dec_linear le_1_2 1 e (sample_enc pk (const_mx 1)) (sample_enc pk 0)).
Defined.

Lemma dec_isolates_codeword_witness :
  exists G1 G2 G M T Q G0 J ct,
    [/\ key_gen 2 1 sample_identity sample_zero_vector 1 tt =
          Returns ((G1, G2), (G, M, T, Q, G0, J)) tt,
        enc sample_zero_vector (G1, G2) (const_mx 1) tt = Returns ct tt
      & dec_uG (G, M, T, Q, G0, J) ct = Some (const_mx 1 *m G)].
Proof.
have [[G1 G2] [[[[[[G M] T] Q] G0] J] e]] := sample_key_gen.
exists G1, G2, G, M, T, Q, G0, J, (const_mx 1 *m G1 + 0 *m G2).
split=> //.
exact: (dec_isolates_codeword le_1_2 e (sample_enc (G1, G2) (const_mx 1))).
Defined.


Lemma dec_raises_on_pivot_count_witness :
  dec le_1_2 ((pid_mx 1, 1%:M, 1%:M, 0, 1%:M, [::]) : secret_key 'F_2 2 1)
      bad_ct = None.
Proof. exact: (@dec_raises_on_pivot_count _ _ _ le_1_2). Defined.

Lemma dec_returns_solution_witness :
  exists G1 G2 G M T Q G0 J ct,
    [/\ key_gen 2 1 sample_identity sample_zero_vector 1 tt =
          Returns ((G1, G2), (G, M, T, Q, G0, J)) tt,
        dec_uG (G, M, T, Q, G0, J) ct = Some (const_mx 1 *m G), rank G = 1%N
      & dec le_1_2 (G, M, T, Q, G0, J) ct = Some (const_mx 1)].
Proof.
have [[G1 G2] [[[[[[G M] T] Q] G0] J] e]] := sample_key_gen.
have keys := key_genP le_1_2 e.
have euG := dec_uG_derived (const_mx 1) 0 keys.
have rkG : rank G = 1%N by case: keys => [[rkG _ _ _ _] _]; rewrite rankE.
exists G1, G2, G, M, T, Q, G0, J, (const_mx 1 *m G1 + 0 *m G2).
split=> //; exact: (dec_returns_solution le_1_2 euG rkG).
Defined.

Lemma attack_solves_witness :
  exists G1 G2,
    rank (G_mult ((G1, G2) : public_key 'F_2 2 1)) = 2%N /\
    ((attack le_1_2 (G1, G2) (const_mx 1 *m G1 + 0 *m G2_reduced 1 G2)).1 =
       (const_mx 1)^T /\
     ncols (attack le_1_2 (G1, G2)
              (const_mx 1 *m G1 + 0 *m G2_reduced 1 G2)).2 = 0%N).
Proof.
have [[G1 G2] [sk e]] := sample_key_gen.
have rk := derived_full_rank le_1_2 (key_genP le_1_2 e).
exists G1, G2; split=> //; exact: (attack_solves le_1_2 (const_mx 1) 0 rk).
Defined.

Lemma G2_reduced_row_space_witness :
  (rank (0 : 'M['F_2]_2) <= 2 - 1)%N /\
  (G2_reduced 1 (0 : 'M['F_2]_2) :=: (0 : 'M['F_2]_2))%MS.
Proof.
have rk : (rank (0 : 'M['F_2]_2) <= 2 - 1)%N by rewrite rankE mxrank0.
split=> //; exact: (G2_reduced_row_space rk).
Defined.

Lemma test_counts_no_failure_witness :
  test_fail le_1_2 sample_identity sample_zero_vector 1 tt <> Raises /\
  forall fail g',
    test_fail le_1_2 sample_identity sample_zero_vector 1 tt =
      Returns fail g' -> fail = 0%N.
Proof. exact: (test_counts_no_failure le_1_2). Defined.
